(** * Erasure-coded object storage: the [encodedstorage] engine

    A shallow embedding of [pkgs/storage/encodedstorage/encoded_storage.go]
    and the properties its specification states about it.

    The engine sits between three collaborators that are not part of the
    file: the stream chunker ([split.SplitStream]), the erasure codec
    ([erasure.Encoder]) and the per-slice object stores
    ([appendstorage], behind the [storage.ObjectStorage] interface).  The
    codec, the object stores and [encoding/gob] are interfaces here (type
    classes); the chunker is modelled from the specification.

    State is passed explicitly: every operation takes the storage root
    (the index file and the slices on disk) and returns it.  A fan-out of
    [storeBlocks] or [getBlockSlices] starts one goroutine per slice and
    waits for all of them; the goroutines work on distinct slices, so what
    they leave on the slices and what they return does not depend on how
    they interleave, and the model runs them in the order of the pool.  A
    Go panic (index out of range) is the result [None]; what the root
    holds after the crash is not modelled.  A reader returned by [Get] is
    described by what a consumer that reads it to the end receives. *)

From Stdlib Require Import ZArith NArith.
From stdpp Require Import base option list gmap strings pretty countable.

Local Open Scope Z_scope.

(** ** Go values *)

(** A Go [error], identified by its message; the nil error is [None]. *)
Definition error := string.

(** A byte slice. *)
Abbreviation bytes := (list Byte.byte).

(** An [io.Reader] as its consumer sees it: the bytes it yields before it
    stops, and how it stops ([None] is [io.EOF]). *)
Record Reader := { rd_data : bytes; rd_err : option error }.

(** [bytes.NewBuffer]: a reader over a slice; it never fails. *)
Definition bytes_NewBuffer (b : bytes) : Reader :=
  {| rd_data := b; rd_err := None |}.

(** [ioutil.ReadAll]: everything read, and the error unless it is EOF. *)
Definition ioutil_ReadAll (r : Reader) : bytes * option error :=
  (rd_data r, rd_err r).

(** A Go result pair [(T, error)] whose value is only used when the error is
    nil. *)
Inductive result (A : Type) : Type :=
  | Val (a : A)
  | Fail (e : error).
Arguments Val {A} a.
Arguments Fail {A} e.

(** [strconv.Itoa]: the decimal rendering of an [int]. *)
Definition Itoa (i : Z) : string := pretty i.

(** ** The chunker, [split.SplitStream] *)

Record SplitMessage := { Data : bytes; Err : option error }.

(** The consecutive slices of [n] bytes of [stream]; the last one holds the
    remainder.  [fuel] bounds the number of chunks. *)
Fixpoint chunksOf (fuel n : nat) (stream : bytes) : list bytes :=
  match fuel, stream with
  | S fuel', _ :: _ => take n stream :: chunksOf fuel' n (drop n stream)
  | _, _ => []
  end.

(** Modelled from the spec: [split.SplitStream], whose source is not in this
    file.  "Given a byte-stream source and a fixed block size, produces a
    lazy, ordered, finite sequence of byte chunks, each either data or a
    terminal error": the messages the channel carries until it is closed are
    the non-empty chunks of [chunkSize] bytes, in order, followed by the read
    error when the source fails.  The spec fixes no behaviour for a chunk
    size of zero; the properties below are stated for any message sequence
    or for a positive chunk size. *)
(** The lengths of the chunks of a stream of [len] bytes. *)
Fixpoint chunkLengths (fuel n len : nat) : list nat :=
  match fuel, len with
  | S fuel', S _ => (n `min` len)%nat :: chunkLengths fuel' n (len - n)
  | _, _ => []
  end.

Definition dataChunks (object : Reader) (chunkSize : N) : list bytes :=
  chunksOf (length (rd_data object)) (N.to_nat chunkSize) (rd_data object).

Definition SplitStream (object : Reader) (chunkSize : N) : list SplitMessage :=
  ((λ d, {| Data := d; Err := None |}) <$> dataChunks object chunkSize)
  ++ match rd_err object with
     | Some e => [{| Data := []; Err := Some e |}]
     | None => []
     end.

(** ** Index entries *)

Record StorageBlockEntry := { Index : Z; Length : Z }.

Record StorageEntry := {
  Path : string;
  Md5sum : string;
  Crc : Z;
  Blocks : list StorageBlockEntry
}.

Record storeResponse := { data : bytes; err : option error }.

Global Instance StorageBlockEntry_eq_dec : EqDecision StorageBlockEntry.
Proof. solve_decision. Defined.

Global Instance StorageEntry_eq_dec : EqDecision StorageEntry.
Proof. solve_decision. Defined.

Global Instance StorageBlockEntry_countable : Countable StorageBlockEntry.
Proof.
  refine (inj_countable' (λ b, (Index b, Length b))
            (λ p, {| Index := p.1; Length := p.2 |}) _).
  by intros [].
Defined.

Global Instance StorageEntry_countable : Countable StorageEntry.
Proof.
  refine (inj_countable' (λ s, (Path s, Md5sum s, Crc s, Blocks s))
            (λ p, {| Path := p.1.1.1; Md5sum := p.1.1.2;
                     Crc := p.1.2; Blocks := p.2 |}) _).
  by intros [].
Defined.

(** ** The collaborators' interfaces *)

Inductive Technique := VANDERMONDE | CAUCHY.

(** The [erasure] package as the engine calls it.  [ParseEncoderParams]
    returns a pointer, nil ([None]) on error, and [NewEncoder] takes it. *)
Class Erasure := {
  EncoderParams : Type;
  Encoder : Type;
  ParseEncoderParams : Z → Z → Technique → option EncoderParams * option error;
  NewEncoder : option EncoderParams → Encoder;
  Encode : Encoder → bytes → list bytes * Z;
  Decode : Encoder → list bytes → Z → bytes * option error
}.

(** [storage.ObjectStorage] as one append-storage slice implements it, over
    the slice's state.  [node_Open] is [appendstorage.NewStorage] on an
    existing slice: whether opening it fails. *)
Class ObjectStorage (Node : Type) := {
  node_Open : Node → option error;
  node_Get : Node → string → result Reader;
  node_Put : Node → string → Reader → Node * option error
}.

(** [encoding/gob] on the index map: the bytes the encoder leaves in its
    buffer, and what the decoder makes of a file's bytes. *)
Class Gob := {
  gob_Encode : gmap string StorageEntry → bytes;
  gob_Decode : bytes → result (gmap string StorageEntry)
}.

(** ** The storage root and the engine *)

(** How [ioutil.WriteFile] ends on the index file: it writes the file in
    full, or the open for writing is refused, or the file is opened (and so
    truncated) and the write or the close fails after [n] bytes. *)
Inductive WriteOutcome :=
  | WriteOk
  | WriteRefused (e : error)
  | WriteShort (n : nat) (e : error).

(** How the file system answers for the index file: the error of [os.Open]
    ([None] when the file opens for reading), and how a write ends. *)
Record IndexAccess := { ia_open : option error; ia_write : WriteOutcome }.

(** What an engine asked of a slice, in the order of the slices. *)
Inductive Event :=
  | EvPut (node : nat) (key : string) (shard : bytes) (outcome : option error)
  | EvGet (node : nat) (key : string).

Section Engine.
Context {Node : Type} `{!ObjectStorage Node} `{!Erasure} `{!Gob}.

(** The storage root [rootDir] and what lives under it: the file
    [rootDir/index] ([None] when [os.Stat] does not find it), how the file
    system answers when the file is opened for reading or written, and the
    slices, by number.  [w_trace] is the log of slice requests. *)
Record World := {
  w_index : option bytes;
  w_index_access : IndexAccess;
  w_nodes : nat → Node;
  w_trace : list Event
}.

Definition set_node (w : World) (node : nat) (s : Node) : World :=
  {| w_index := w_index w;
     w_index_access := w_index_access w;
     w_nodes := λ n, if decide (n = node) then s else w_nodes w n;
     w_trace := w_trace w |}.

Definition log (w : World) (ev : Event) : World :=
  {| w_index := w_index w;
     w_index_access := w_index_access w;
     w_nodes := w_nodes w;
     w_trace := w_trace w ++ [ev] |}.

Definition set_index (w : World) (content : bytes) : World :=
  {| w_index := Some content;
     w_index_access := w_index_access w;
     w_nodes := w_nodes w;
     w_trace := w_trace w |}.

(** [ioutil.WriteFile(path.Join(rootDir, "index"), data, 0600)]: the file
    is opened with [O_WRONLY|O_CREATE|O_TRUNC], written and closed.  When
    the open is refused the file is untouched; once it is open the file has
    been truncated, and a write that fails leaves the bytes written so
    far. *)
Definition ioutil_WriteFile (w : World) (content : bytes) : World * option error :=
  match ia_write (w_index_access w) with
  | WriteOk => (set_index w content, None)
  | WriteRefused e => (w, Some e)
  | WriteShort n e => (set_index w (take n content), Some e)
  end.

(** The engine.  [diskStorage] holds the handles of the slices, which are
    their numbers under the root. *)
Record encodedStorage := {
  RootDir : string;
  K : Z;
  M : Z;
  BlockSize : N;
  objects : gmap string StorageEntry;
  diskStorage : list nat
}.

(** The loop of [NewStorage] that opens slices [i], [i+1], ...: it stops at
    the first slice that fails to open. *)
Fixpoint openNodes (w : World) (count i : nat) : result (list nat) :=
  match count with
  | O => Val []
  | S count' =>
      match node_Open (w_nodes w i) with
      | Some e => Fail e
      | None =>
          match openNodes w count' (S i) with
          | Val storageNodes => Val (i :: storageNodes)
          | Fail e => Fail e
          end
      end
  end.

(** The index [NewStorage] starts from.  When [os.Stat] does not find the
    index file the map stays empty; otherwise the file is opened, which can
    fail, and decoded into the fresh map, which can fail. *)
Definition loadIndex (w : World) : result (gmap string StorageEntry) :=
  match w_index w with
  | Some indexFile =>
      match ia_open (w_index_access w) with
      | Some e => Fail e
      | None => gob_Decode indexFile
      end
  | None => Val ∅
  end.

Definition NewStorage (w : World) (rootDir : string) (k m : Z) (blockSize : N)
    : result encodedStorage :=
  match openNodes w 16 0 with
  | Fail e => Fail e
  | Val storageNodes =>
      match loadIndex w with
      | Fail e => Fail e
      | Val objs =>
          Val {| RootDir := rootDir; K := k; M := m; BlockSize := blockSize;
                 objects := objs; diskStorage := storageNodes |}
      end
  end.

(** [storageRoutine]: the write of one shard to one slice. *)
Definition storageRoutine (store : nat) (path : string) (shard : Reader)
    (w : World) : option error * World :=
  let '(s', e) := node_Put (w_nodes w store) path shard in
  (e, log (set_node w store s') (EvPut store path (rd_data shard) e)).

(** The body of the goroutine of [getSlice], on the state of its slice. *)
Definition fetch (s : Node) (path : string) : storeResponse :=
  match node_Get s path with
  | Fail e => {| data := []; err := Some e |}
  | Val obj => let '(d, e) := ioutil_ReadAll obj in {| data := d; err := e |}
  end.

(** [getSlice]: the read of one shard from one slice. *)
Definition getSlice (store : nat) (path : string) (w : World)
    : storeResponse * World :=
  (fetch (w_nodes w store) path, log w (EvGet store path)).

(** The first loop of [storeBlocks] from slice position [i] on.  [blocks[i]]
    panics with index out of range when [i] is not below [len(blocks)]:
    the result is then [None].  The errors come back in slice order. *)
Fixpoint storeBlocksFrom (stores : list nat) (i : nat) (path : string)
    (blocks : list bytes) (w : World) : option (list error * World) :=
  match stores with
  | [] => Some ([], w)
  | store :: stores' =>
      match blocks !! i with
      | None => None
      | Some block =>
          let '(e, w1) := storageRoutine store path (bytes_NewBuffer block) w in
          match storeBlocksFrom stores' (S i) path blocks w1 with
          | None => None
          | Some (returnErrors, w2) =>
              Some (match e with
                    | Some x => x :: returnErrors
                    | None => returnErrors
                    end, w2)
          end
      end
  end.

Definition storeBlocks (eStorage : encodedStorage) (path : string)
    (blocks : list bytes) (w : World) : option (list error * World) :=
  storeBlocksFrom (diskStorage eStorage) 0 path blocks w.

Fixpoint getBlockSlicesFrom (stores : list nat) (objectPath : string)
    (w : World) : list storeResponse * World :=
  match stores with
  | [] => ([], w)
  | store :: stores' =>
      let '(response, w1) := getSlice store objectPath w in
      let '(results, w2) := getBlockSlicesFrom stores' objectPath w1 in
      (response :: results, w2)
  end.

Definition getBlockSlices (eStorage : encodedStorage) (objectPath : string)
    (w : World) : list storeResponse * World :=
  getBlockSlicesFrom (diskStorage eStorage) objectPath w.

(** The key of chunk [i] of [objectPath]. *)
Definition chunkKey (objectPath : string) (i : Z) : string :=
  objectPath +:+ "$" +:+ Itoa i.

(** The inner loop of [readObject] over the responses: the shards, or
    [None] as soon as one response carries an error. *)
Fixpoint gatherSlices (blockSlices : list storeResponse) : option (list bytes) :=
  match blockSlices with
  | [] => Some []
  | slice :: rest =>
      match err slice with
      | Some _ => None
      | None =>
          match gatherSlices rest with
          | Some blocks => Some (data slice :: blocks)
          | None => None
          end
      end
  end.

(** The loop of [readObject] from chunk [i] on.  [perr] is the variable
    [err] of the enclosing function, set by [ParseEncoderParams]: it is
    what the loop passes to [CloseWithError] when a slice fails, and
    [CloseWithError(nil)] ends the stream with EOF.  [written] is what the
    pipe has delivered so far; the consumer reads the pipe to its end. *)
Fixpoint readBlocks (eStorage : encodedStorage) (encoder : Encoder)
    (perr : option error) (objectPath : string) (i : Z)
    (blocks : list StorageBlockEntry) (written : bytes) (w : World)
    : Reader * World :=
  match blocks with
  | [] => ({| rd_data := written; rd_err := None |}, w)
  | chunk :: rest =>
      let '(blockSlices, w1) := getBlockSlices eStorage (chunkKey objectPath i) w in
      match gatherSlices blockSlices with
      | None => ({| rd_data := written; rd_err := perr |}, w1)
      | Some shards =>
          match Decode encoder shards (Length chunk) with
          | (_, Some e) => ({| rd_data := written; rd_err := Some e |}, w1)
          | (d, None) =>
              readBlocks eStorage encoder perr objectPath (i + 1) rest
                (written ++ d) w1
          end
      end
  end.

Definition readObject (eStorage : encodedStorage) (objectPath : string)
    (entry : StorageEntry) (w : World) : Reader * World :=
  let '(params, perr) := ParseEncoderParams (K eStorage) (M eStorage) CAUCHY in
  let encoder := NewEncoder params in
  readBlocks eStorage encoder perr objectPath 0 (Blocks entry) [] w.

(** [Get]: the reader is nil ([None]) when the path is not indexed. *)
Definition Get (eStorage : encodedStorage) (objectPath : string) (w : World)
    : (option Reader * option error) * World :=
  match objects eStorage !! objectPath with
  | None => ((None, None), w)
  | Some entry =>
      let '(reader, w') := readObject eStorage objectPath entry w in
      ((Some reader, None), w')
  end.

Definition List (eStorage : encodedStorage) (listPath : string)
    : option (list string) * option error :=
  (None, Some "Not Implemented"%string).

(** The loop of [Put] over the chunk messages, from chunk [i] on, building
    [entry]: the error it returns with, or the finished entry.  [None] is a
    panic inside [storeBlocks]. *)
Fixpoint putChunks (eStorage : encodedStorage) (encoder : Encoder)
    (objectPath : string) (chunks : list SplitMessage) (i : Z)
    (entry : StorageEntry) (w : World)
    : option ((error + StorageEntry) * World) :=
  match chunks with
  | [] => Some (inr entry, w)
  | chunk :: rest =>
      match Err chunk with
      | Some e => Some (inl e, w)
      | None =>
          let '(blocks, length) := Encode encoder (Data chunk) in
          match storeBlocks eStorage (chunkKey objectPath i) blocks w with
          | None => None
          | Some (e :: _, w1) => Some (inl e, w1)
          | Some ([], w1) =>
              let blockEntry := {| Index := i; Length := length |} in
              putChunks eStorage encoder objectPath rest (i + 1)
                {| Path := Path entry; Md5sum := Md5sum entry; Crc := Crc entry;
                   Blocks := Blocks entry ++ [blockEntry] |} w1
          end
      end
  end.

Definition setObjects (eStorage : encodedStorage)
    (objs : gmap string StorageEntry) : encodedStorage :=
  {| RootDir := RootDir eStorage; K := K eStorage; M := M eStorage;
     BlockSize := BlockSize eStorage; objects := objs;
     diskStorage := diskStorage eStorage |}.

(** [Put]: the returned error and the engine afterwards, or [None] when the
    call panics.  The results of [gobEncoder.Encode] and
    [ioutil.WriteFile] are dropped, as in the source. *)
Definition Put (eStorage : encodedStorage) (objectPath : string)
    (object : Reader) (w : World)
    : option ((option error * encodedStorage) * World) :=
  let chunks := SplitStream object (BlockSize eStorage) in
  let '(encoderParameters, perr) :=
    ParseEncoderParams (K eStorage) (M eStorage) CAUCHY in
  match perr with
  | Some e => Some ((Some e, eStorage), w)
  | None =>
      let encoder := NewEncoder encoderParameters in
      let entry := {| Path := objectPath; Md5sum := "md5sum"; Crc := 24;
                      Blocks := [] |} in
      match putChunks eStorage encoder objectPath chunks 0 entry w with
      | None => None
      | Some (inl e, w1) => Some ((Some e, eStorage), w1)
      | Some (inr entry', w1) =>
          let eStorage' :=
            setObjects eStorage (<[objectPath := entry']> (objects eStorage)) in
          let '(w2, _) := ioutil_WriteFile w1 (gob_Encode (objects eStorage')) in
          Some ((None, eStorage'), w2)
      end
  end.

(** ** Notions the properties are stated with *)

(** The encoder [Put] and [readObject] build from the engine's parameters. *)
Definition encoderOf (eStorage : encodedStorage) : Encoder :=
  NewEncoder (ParseEncoderParams (K eStorage) (M eStorage) CAUCHY).1.

(** A slice keeps what was put: after a put that reports no error, a get
    under the same key returns the bytes put, and gets under other keys
    are as before. *)
Definition faithful_store : Prop :=
  ∀ (s s' : Node) key b,
    node_Put s key (bytes_NewBuffer b) = (s', None) →
    ∀ key', node_Get s' key' =
            if decide (key' = key) then Val (bytes_NewBuffer b)
            else node_Get s key'.

End Engine.

(** The result of a slice request, and the request without its result:
    slice, key, and the shard when it is a write. *)
Definition evOutcome (ev : Event) : option error :=
  match ev with
  | EvPut _ _ _ o => o
  | EvGet _ _ => None
  end.

Definition request (ev : Event) : nat * string * option bytes :=
  match ev with
  | EvPut n key shard _ => (n, key, Some shard)
  | EvGet n key => (n, key, None)
  end.

(** The write requests of one chunk: shard [j] to the slice at position
    [j], all under [key]; and its read requests. *)
Definition putRequests (stores : list nat) (key : string) (blocks : list bytes)
    : list (nat * string * option bytes) :=
  zip_with (λ store block, (store, key, Some block)) stores blocks.

Definition getRequests (stores : list nat) (key : string)
    : list (nat * string * option bytes) :=
  (λ store, (store, key, None)) <$> stores.

(** ** Reference collaborators

    Executable instances of the three interfaces, used to run the engine on
    concrete inputs. *)

(** An in-memory slice: the blobs it holds, and whether it is offline (an
    offline slice fails every request). *)
Record MemNode := { blobs : gmap string bytes; offline : bool }.

Definition mem_Open (s : MemNode) : option error :=
  if offline s then Some "slice offline"%string else None.

Definition mem_Get (s : MemNode) (key : string) : result Reader :=
  if offline s then Fail "slice offline"%string
  else match blobs s !! key with
       | Some b => Val (bytes_NewBuffer b)
       | None => Fail "no such object"%string
       end.

Definition mem_Put (s : MemNode) (key : string) (r : Reader)
    : MemNode * option error :=
  if offline s then (s, Some "slice offline"%string)
  else match rd_err r with
       | Some e => (s, Some e)
       | None => ({| blobs := <[key := rd_data r]> (blobs s);
                     offline := offline s |}, None)
       end.

Global Instance MemNode_storage : ObjectStorage MemNode :=
  {| node_Open := mem_Open; node_Get := mem_Get; node_Put := mem_Put |}.

(** A striping codec: the chunk, padded with zeros, is cut into [k] data
    shards of equal size, followed by [m] parity shards, each the xor of
    the data shards.  Decoding needs the [k] data shards in their places,
    all shards of one size. *)
Record StripeParams := { sp_k : nat; sp_m : nat }.

Definition byte_xor (a b : Byte.byte) : Byte.byte :=
  default Byte.x00 (Byte.of_N (N.lxor (Byte.to_N a) (Byte.to_N b))).

Definition stripe_Parse (k m : Z) (t : Technique)
    : option StripeParams * option error :=
  if decide (k < 1) then (None, Some "k cannot be less than 1"%string)
  else if decide (m < 1) then (None, Some "m cannot be less than 1"%string)
  else if decide (255 < k + m) then (None, Some "k + m cannot exceed 255"%string)
  else (Some {| sp_k := Z.to_nat k; sp_m := Z.to_nat m |}, None).

Definition stripe_Encode (p : option StripeParams) (chunk : bytes)
    : list bytes * Z :=
  match p with
  | None => ([], Z.of_nat (length chunk))
  | Some p =>
      let size := ((length chunk + sp_k p - 1) / sp_k p)%nat in
      let padded := chunk ++ replicate (sp_k p * size - length chunk) Byte.x00 in
      let shards := (λ j, take size (drop (j * size) padded)) <$> seq 0 (sp_k p) in
      let parity := foldr (zip_with byte_xor) (replicate size Byte.x00) shards in
      (shards ++ replicate (sp_m p) parity, Z.of_nat (length chunk))
  end.

Definition stripe_Decode (p : option StripeParams) (shards : list bytes)
    (length : Z) : bytes * option error :=
  match p with
  | None => ([], Some "no encoder parameters"%string)
  | Some p =>
      if decide (List.length shards < sp_k p)%nat
      then ([], Some "too few shards"%string)
      else if decide (Forall (λ s, List.length s = List.length (default [] (head shards))) shards)
      then (take (Z.to_nat length) (concat (take (sp_k p) shards)), None)
      else ([], Some "shards of different sizes"%string)
  end.

Global Instance Stripe_erasure : Erasure :=
  {| EncoderParams := StripeParams;
     Encoder := option StripeParams;
     ParseEncoderParams := stripe_Parse;
     NewEncoder := λ p, p;
     Encode := stripe_Encode;
     Decode := stripe_Decode |}.

(** A serialisation of the index map: a leading byte, then the bits of
    the map's code as a countable value, one per byte.  As with gob, the
    encoding of a map is never empty and an empty file does not decode. *)
Fixpoint pos_to_bytes (p : positive) : bytes :=
  match p with
  | xH => []
  | xO q => Byte.x00 :: pos_to_bytes q
  | xI q => Byte.x01 :: pos_to_bytes q
  end.

Fixpoint bytes_to_pos (b : bytes) : option positive :=
  match b with
  | [] => Some xH
  | Byte.x00 :: rest => xO <$> bytes_to_pos rest
  | Byte.x01 :: rest => xI <$> bytes_to_pos rest
  | _ => None
  end.

Definition bits_Encode (objs : gmap string StorageEntry) : bytes :=
  Byte.xff :: pos_to_bytes (encode objs).

Definition bits_Decode (file : bytes) : result (gmap string StorageEntry) :=
  match file with
  | [] => Fail "EOF"%string
  | Byte.xff :: code =>
      match bytes_to_pos code ≫= decode with
      | Some objs => Val objs
      | None => Fail "gob: cannot decode"%string
      end
  | _ => Fail "gob: cannot decode"%string
  end.

Global Instance Bits_gob : Gob :=
  {| gob_Encode := bits_Encode; gob_Decode := bits_Decode |}.

(** A fresh storage root: no index file, sixteen empty slices. *)
Definition fresh_node : MemNode := {| blobs := ∅; offline := false |}.

Definition fresh_root : World (Node := MemNode) :=
  {| w_index := None;
     w_index_access := {| ia_open := None; ia_write := WriteOk |};
     w_nodes := λ _, fresh_node; w_trace := [] |}.

(** The environment acting on a root between two calls of the engine. *)
Definition set_access (w : World (Node := MemNode)) (access : IndexAccess)
    : World :=
  {| w_index := w_index w; w_index_access := access;
     w_nodes := w_nodes w; w_trace := w_trace w |}.

(** The index file made read-only: opening it for writing is refused. *)
Definition lock_index (w : World (Node := MemNode)) : World :=
  {| w_index := w_index w;
     w_index_access :=
       {| ia_open := ia_open (w_index_access w);
          ia_write := WriteRefused "permission denied" |};
     w_nodes := w_nodes w; w_trace := w_trace w |}.

Definition take_offline (w : World (Node := MemNode)) (node : nat) : World :=
  set_node w node {| blobs := blobs (w_nodes w node); offline := true |}.

Definition bring_online (w : World (Node := MemNode)) (node : nat) : World :=
  set_node w node {| blobs := blobs (w_nodes w node); offline := false |}.

Definition lose_blob (w : World (Node := MemNode)) (node : nat) (key : string)
    : World :=
  set_node w node {| blobs := delete key (blobs (w_nodes w node));
                     offline := offline (w_nodes w node) |}.

(** The engine [NewStorage] returns on a fresh root. *)
Definition fresh_engine (k m : Z) (blockSize : N) : encodedStorage :=
  {| RootDir := "root"; K := k; M := m; BlockSize := blockSize;
     objects := ∅; diskStorage := seq 0 16 |}.

(** An object of [n] bytes. *)
Definition sample_object (n : nat) : Reader :=
  bytes_NewBuffer ((λ i, default Byte.x00 (Byte.of_N (N.of_nat (i `mod` 251)))) <$> seq 0 n).

(** A reader that yields [b] and then fails. *)
Definition failing_object (b : bytes) : Reader :=
  {| rd_data := b; rd_err := Some "unexpected EOF"%string |}.


(** The engine and the root after a [Put] (as they were when it panics). *)
Definition after_Put (eStorage : encodedStorage) (objectPath : string)
    (object : Reader) (w : World (Node := MemNode)) : encodedStorage * World :=
  match Put eStorage objectPath object w with
  | Some ((_, e'), w') => (e', w')
  | None => (eStorage, w)
  end.

(** What a consumer gets from [Get]: the reader and the error. *)
Definition Get_result (eStorage : encodedStorage) (objectPath : string)
    (w : World (Node := MemNode)) : option Reader * option error :=
  (Get eStorage objectPath w).1.

(** The index an engine reopened on the root holds for a path. *)
Definition reopened_entry (w : World (Node := MemNode)) (k m : Z)
    (blockSize : N) (objectPath : string) : result (option StorageEntry) :=
  match NewStorage w "root" k m blockSize with
  | Val eStorage => Val (objects eStorage !! objectPath)
  | Fail e => Fail e
  end.

(** A string without the separator of the shard keys. *)
Fixpoint no_dollar (s : string) : Prop :=
  match s with
  | EmptyString => True
  | String c s' => String c EmptyString ≠ "$"%string ∧ no_dollar s'
  end.

(** The index as [Put] builds it: every entry is filed under its own path
    and its blocks are numbered by their positions. *)
Definition index_wf (objs : gmap string StorageEntry) : Prop :=
  ∀ path entry, objs !! path = Some entry →
    Path entry = path ∧
    ∀ i block, Blocks entry !! i = Some block → Index block = Z.of_nat i.

(** * Properties *)

(** ** The chunker and the chunk keys *)

Lemma chunksOf_concat fuel n stream :
  (0 < n)%nat → (length stream ≤ fuel)%nat →
  concat (chunksOf fuel n stream) = stream.
Proof.
  intros Hn. revert stream.
  induction fuel as [|fuel IH]; intros stream Hlen.
  - destruct stream; [done | simpl in Hlen; lia].
  - destruct stream as [|b stream]; [done|].
    cbn [chunksOf concat]. rewrite IH.
    + apply take_drop.
    + rewrite length_drop. simpl in *. lia.
Qed.

Lemma chunksOf_lengths fuel n stream :
  length <$> chunksOf fuel n stream = chunkLengths fuel n (length stream).
Proof.
  revert stream. induction fuel as [|fuel IH]; intros stream; [done|].
  destruct stream as [|b stream]; [done|].
  cbn [chunksOf fmap list_fmap chunkLengths length].
  rewrite IH, length_take, length_drop. done.
Qed.

Lemma dataChunks_concat object chunkSize :
  (0 < chunkSize)%N → concat (dataChunks object chunkSize) = rd_data object.
Proof. intros. apply chunksOf_concat; lia. Qed.

Lemma dataChunks_head object chunkSize b rest :
  rd_data object = b :: rest →
  ∃ c cs, dataChunks object chunkSize = c :: cs.
Proof. unfold dataChunks. intros ->. simpl. eauto. Qed.

Lemma chunkKey_inj objectPath i j :
  chunkKey objectPath i = chunkKey objectPath j → i = j.
Proof.
  unfold chunkKey, Itoa. intros Heq.
  apply (inj (String.app objectPath)) in Heq.
  apply (inj (String.app "$")) in Heq.
  by apply (inj pretty) in Heq.
Qed.

Section Properties.
Context {Node : Type} `{!ObjectStorage Node} `{!Erasure} `{!Gob}.
Implicit Types (w : World (Node := Node)) (eStorage : encodedStorage).

(** ** [NewStorage] *)

Lemma openNodes_handles w count i storageNodes :
  openNodes w count i = Val storageNodes → storageNodes = seq i count.
Proof.
  revert i storageNodes. induction count as [|count IH]; intros i nodes; simpl.
  - by intros [= <-].
  - destruct (node_Open _); [done|].
    destruct (openNodes w count (S i)) eqn:Hrest; [|done].
    intros [= <-]. by rewrite (IH _ _ Hrest).
Qed.

Lemma NewStorage_inv w rootDir k m blockSize eStorage :
  NewStorage w rootDir k m blockSize = Val eStorage →
  diskStorage eStorage = seq 0 16 ∧ loadIndex w = Val (objects eStorage) ∧
  K eStorage = k ∧ M eStorage = m ∧ BlockSize eStorage = blockSize.
Proof.
  unfold NewStorage.
  destruct (openNodes w 16 0) as [nodes|] eqn:Hopen; [|done].
  destruct (loadIndex w) as [objs|]; [|done].
  intros [= <-]. simpl. by rewrite (openNodes_handles _ _ _ _ Hopen).
Qed.

(** ** The fan-out of [storeBlocks] *)

Lemma storeBlocksFrom_panics stores i path blocks w :
  (i ≤ length blocks)%nat →
  storeBlocksFrom stores i path blocks w = None ↔
  (length blocks < i + length stores)%nat.
Proof.
  revert i w. induction stores as [|store stores IH]; intros i w Hi; simpl.
  - split; [done | lia].
  - destruct (blocks !! i) as [block|] eqn:Hblock.
    + apply lookup_lt_Some in Hblock.
      destruct (storageRoutine store path (bytes_NewBuffer block) w) as [e w1].
      specialize (IH (S i) w1 ltac:(lia)).
      destruct (storeBlocksFrom stores (S i) path blocks w1) as [[errs w2]|].
      * split; [done|]. intros Hlt.
        assert (Some (errs, w2) = None) by (apply IH; lia). done.
      * split; [|done]. intros _. destruct IH as [IH _]. specialize (IH eq_refl). lia.
    + apply lookup_ge_None in Hblock. split; [lia | done].
Qed.

Lemma storeBlocks_panics eStorage path blocks w :
  storeBlocks eStorage path blocks w = None ↔
  (length blocks < length (diskStorage eStorage))%nat.
Proof.
  unfold storeBlocks. rewrite storeBlocksFrom_panics by lia. done.
Qed.

Lemma storeBlocksFrom_trace stores i path blocks w errs w' :
  storeBlocksFrom stores i path blocks w = Some (errs, w') →
  w_index w' = w_index w ∧ w_index_access w' = w_index_access w ∧
  ∃ evs, w_trace w' = w_trace w ++ evs ∧
         request <$> evs = putRequests stores path (drop i blocks) ∧
         errs = omap evOutcome evs.
Proof.
  revert i w errs w'.
  induction stores as [|store stores IH]; intros i w errs w'; simpl.
  - intros [= <- <-]. repeat split. exists []. by rewrite app_nil_r.
  - destruct (blocks !! i) as [block|] eqn:Hblock; [|done].
    unfold storageRoutine.
    destruct (node_Put (w_nodes w store) path (bytes_NewBuffer block)) as [s' e].
    destruct (storeBlocksFrom stores (S i) _ _ _) as [[errs2 w2]|] eqn:Hrest; [|done].
    intros [= <- <-].
    destruct (IH _ _ _ _ Hrest) as (Hidx & Hlock & evs & Htr & Hreq & Herrs).
    repeat split; [done..|].
    exists (EvPut store path block e :: evs). simpl in Htr.
    rewrite Htr, <- app_assoc. split; [done|].
    rewrite (drop_S _ _ _ Hblock). unfold putRequests in *.
    rewrite fmap_cons, Hreq. split; [done|]. rewrite Herrs. by destruct e.
Qed.

(** After a fan-out without error, every slice of the pool returns its
    shard under the key, and gets under other keys are as they were. *)
Lemma storeBlocksFrom_nodes stores i path blocks w w' :
  faithful_store → NoDup stores →
  storeBlocksFrom stores i path blocks w = Some ([], w') →
  (∀ j store, stores !! j = Some store →
     ∃ block, blocks !! (i + j)%nat = Some block ∧
              node_Get (w_nodes w' store) path = Val (bytes_NewBuffer block)) ∧
  (∀ store key, key ≠ path →
     node_Get (w_nodes w' store) key = node_Get (w_nodes w store) key) ∧
  (∀ store, store ∉ stores → w_nodes w' store = w_nodes w store).
Proof.
  intros Hfaith. revert i w w'.
  induction stores as [|store0 stores IH]; intros i w w' Hnodup; simpl.
  - intros [= <-]. split_and!; [|done..]. by intros j store Hj.
  - destruct (blocks !! i) as [block|] eqn:Hblock; [|done].
    unfold storageRoutine.
    destruct (node_Put (w_nodes w store0) path (bytes_NewBuffer block))
      as [s' e] eqn:Hput.
    destruct (storeBlocksFrom stores (S i) _ _ _) as [[errs2 w2]|] eqn:Hrest; [|done].
    intros [= Herrs <-]. destruct e; [done|]. subst errs2.
    pose proof (NoDup_cons_1_1 _ _ Hnodup) as Hfresh.
    apply NoDup_cons_1_2 in Hnodup.
    destruct (IH _ _ _ Hnodup Hrest) as (Hin & Hother & Hout).
    pose proof (Hfaith _ _ _ _ Hput) as Hget.
    split_and!.
    + intros [|j] store Hj; simpl in Hj.
      * injection Hj as <-. exists block. rewrite Nat.add_0_r. split; [done|].
        rewrite (Hout _ Hfresh). simpl. rewrite decide_True by done.
        rewrite Hget. by rewrite decide_True.
      * replace (i + S j)%nat with (S i + j)%nat by lia. by apply Hin.
    + intros store key Hkey. rewrite (Hother _ _ Hkey). simpl.
      case_decide as Hst; [|done]. subst store.
      rewrite Hget. by rewrite decide_False.
    + intros store Hnot. apply not_elem_of_cons in Hnot as [Hne Hnot].
      rewrite (Hout _ Hnot). simpl. by rewrite decide_False.
Qed.

(** ** The fan-in of [getBlockSlices] *)

Lemma getBlockSlicesFrom_spec stores objectPath w :
  ∃ w', getBlockSlicesFrom stores objectPath w =
          ((λ store, fetch (w_nodes w store) objectPath) <$> stores, w') ∧
        w_nodes w' = w_nodes w ∧ w_index w' = w_index w ∧
        w_index_access w' = w_index_access w ∧
        w_trace w' = w_trace w ++ ((λ store, EvGet store objectPath) <$> stores).
Proof.
  revert w. induction stores as [|store stores IH]; intros w; simpl.
  - exists w. by rewrite app_nil_r.
  - unfold getSlice.
    destruct (IH (log w (EvGet store objectPath))) as (w' & -> & Hn & Hi & Hl & Ht).
    exists w'. simpl in *. rewrite Hn, Hi, Hl, Ht, <- app_assoc. done.
Qed.

Lemma gatherSlices_Some blockSlices shards :
  gatherSlices blockSlices = Some shards ↔
  Forall (λ slice, err slice = None) blockSlices ∧ shards = data <$> blockSlices.
Proof.
  revert shards. induction blockSlices as [|slice rest IH]; intros shards; simpl.
  - split; [by intros [= <-] | by intros [_ ->]].
  - destruct (err slice) eqn:Herr.
    + split; [done|]. intros [Hall _]. apply Forall_cons_1 in Hall as [? _]. congruence.
    + destruct (gatherSlices rest) as [blocks|].
      * split.
        -- intros [= <-]. destruct (IH blocks) as [[Hall ->] _]; [done|].
           split; [by constructor | done].
        -- intros [Hall ->]. apply Forall_cons_1 in Hall as [_ Hall].
           destruct (IH (data <$> rest)) as [_ Hback].
           specialize (Hback (conj Hall eq_refl)). by injection Hback as ->.
      * split; [done|]. intros [Hall ->]. apply Forall_cons_1 in Hall as [_ Hall].
        destruct (IH (data <$> rest)) as [_ Hback]. by specialize (Hback (conj Hall eq_refl)).
Qed.

Lemma gatherSlices_None blockSlices :
  gatherSlices blockSlices = None ↔
  Exists (λ slice, err slice ≠ None) blockSlices.
Proof.
  induction blockSlices as [|slice rest IH]; simpl.
  - split; [done | by inversion 1].
  - rewrite Exists_cons. destruct (err slice) eqn:Herr.
    + split; [by left | done].
    + destruct (gatherSlices rest).
      * split; [done|]. intros [?|Hex]; [done|]. by apply IH in Hex.
      * split; [|done]. intros _. right. by apply IH.
Qed.

(** ** The loop of [readObject] *)

Lemma readBlocks_slice_error eStorage encoder perr objectPath i chunk rest written w :
  Exists (λ store, err (fetch (w_nodes w store) (chunkKey objectPath i)) ≠ None)
    (diskStorage eStorage) →
  (readBlocks eStorage encoder perr objectPath i (chunk :: rest) written w).1 =
    {| rd_data := written; rd_err := perr |}.
Proof.
  intros Hbad. simpl. unfold getBlockSlices.
  destruct (getBlockSlicesFrom_spec (diskStorage eStorage) (chunkKey objectPath i) w)
    as (w1 & -> & _).
  assert (gatherSlices ((λ store, fetch (w_nodes w store) (chunkKey objectPath i))
            <$> diskStorage eStorage) = None) as ->; [|done].
  apply gatherSlices_None. by apply Exists_fmap.
Qed.

Lemma readBlocks_step eStorage encoder perr objectPath i chunk rest written w d :
  let slices := (λ store, fetch (w_nodes w store) (chunkKey objectPath i))
                  <$> diskStorage eStorage in
  Forall (λ slice, err slice = None) slices →
  Decode encoder (data <$> slices) (Length chunk) = (d, None) →
  ∃ w1, w_nodes w1 = w_nodes w ∧
    readBlocks eStorage encoder perr objectPath i (chunk :: rest) written w =
    readBlocks eStorage encoder perr objectPath (i + 1) rest (written ++ d) w1.
Proof.
  intros slices Hall Hdec. simpl. unfold getBlockSlices.
  destruct (getBlockSlicesFrom_spec (diskStorage eStorage) (chunkKey objectPath i) w)
    as (w1 & -> & Hnodes & _).
  exists w1. split; [done|]. fold slices.
  assert (gatherSlices slices = Some (data <$> slices)) as ->.
  { by apply gatherSlices_Some. }
  by rewrite Hdec.
Qed.

(** The requests of a read: the slices of the pool in order, chunk after
    chunk, each chunk under its key. *)
Lemma readBlocks_trace eStorage encoder perr objectPath i blocks written w :
  ∃ n, (n ≤ length blocks)%nat ∧
    let w' := (readBlocks eStorage encoder perr objectPath i blocks written w).2 in
    w_nodes w' = w_nodes w ∧ w_index w' = w_index w ∧
    ∃ evs, w_trace w' = w_trace w ++ evs ∧
      request <$> evs =
        concat ((λ k, getRequests (diskStorage eStorage)
                        (chunkKey objectPath (i + Z.of_nat k))) <$> seq 0 n).
Proof.
  revert i written w. induction blocks as [|chunk rest IH]; intros i written w.
  - exists 0%nat. simpl. split_and!; [done..|]. exists []. by rewrite app_nil_r.
  - simpl. unfold getBlockSlices.
    destruct (getBlockSlicesFrom_spec (diskStorage eStorage) (chunkKey objectPath i) w)
      as (w1 & -> & Hnodes & Hidx & _ & Htrace).
    assert (request <$> ((λ store, EvGet store (chunkKey objectPath i))
              <$> diskStorage eStorage) =
            getRequests (diskStorage eStorage) (chunkKey objectPath (i + Z.of_nat 0)))
      as Hreq.
    { rewrite Nat2Z.inj_0, Z.add_0_r. unfold getRequests.
      by rewrite <- list_fmap_compose. }
    destruct (gatherSlices _) as [shards|].
    2:{ exists 1%nat. simpl. split_and!; [lia | done..|].
        eexists. split; [done|]. by rewrite Hreq, app_nil_r. }
    destruct (Decode encoder shards (Length chunk)) as [d [e|]].
    { exists 1%nat. simpl. split_and!; [lia | done..|].
      eexists. split; [done|]. by rewrite Hreq, app_nil_r. }
    destruct (IH (i + 1) (written ++ d) w1) as (n & Hn & Hn' & Hi' & evs & Ht' & Hr').
    exists (S n). split; [lia|]. cbv zeta in *.
    rewrite Hn', Hi', Ht', Htrace, Hnodes, Hidx. split_and!; [done..|].
    eexists. split; [by rewrite <- app_assoc|].
    rewrite fmap_app, Hreq, Hr'. cbn [seq fmap list_fmap concat].
    rewrite <- fmap_S_seq, <- list_fmap_compose. do 2 f_equal.
    apply list_fmap_ext. intros _ k _. simpl. do 2 f_equal. lia.
Qed.

(** When the shards of the chunks [cs] are on the slices under the keys
    from [i] on, one per slice, and the codec decodes what it encoded, the
    loop delivers the chunks. *)
Lemma readBlocks_stored eStorage encoder perr objectPath cs :
  ∀ i blocks written w,
    Forall2 (λ c block, Length block = (Encode encoder c).2) cs blocks →
    (∀ n c, cs !! n = Some c →
       length (Encode encoder c).1 = length (diskStorage eStorage) ∧
       Decode encoder (Encode encoder c).1 (Encode encoder c).2 = (c, None) ∧
       ∀ j store, diskStorage eStorage !! j = Some store →
         ∃ b, (Encode encoder c).1 !! j = Some b ∧
              node_Get (w_nodes w store) (chunkKey objectPath (i + Z.of_nat n)) =
                Val (bytes_NewBuffer b)) →
    (readBlocks eStorage encoder perr objectPath i blocks written w).1 =
      {| rd_data := written ++ concat cs; rd_err := None |}.
Proof.
  induction cs as [|c cs IH]; intros i blocks written w Hlen Hstored.
  - apply Forall2_nil_inv_l in Hlen as ->. simpl. by rewrite app_nil_r.
  - apply Forall2_cons_inv_l in Hlen as (block & blocks' & Hblock & Hlen & ->).
    destruct (Hstored 0%nat c eq_refl) as (Hsize & Hdec & Hget).
    rewrite Z.add_0_r in Hget.
    assert ((λ store, fetch (w_nodes w store) (chunkKey objectPath i))
              <$> diskStorage eStorage =
            (λ b, {| data := b; err := None |}) <$> (Encode encoder c).1) as Hslices.
    { apply list_eq. intros j. rewrite !list_lookup_fmap.
      destruct (diskStorage eStorage !! j) as [store|] eqn:Hj; simpl.
      - destruct (Hget _ _ Hj) as (b & -> & Hb). simpl.
        unfold fetch. by rewrite Hb.
      - apply lookup_ge_None in Hj. rewrite <- Hsize in Hj.
        apply lookup_ge_None in Hj. by rewrite Hj. }
    destruct (readBlocks_step eStorage encoder perr objectPath i block blocks'
                written w c) as (w1 & Hnodes & ->).
    + rewrite Hslices. apply Forall_fmap, Forall_true. done.
    + rewrite Hslices, Hblock.
      replace (data <$> ((λ b, {| data := b; err := None |}) <$> (Encode encoder c).1))
        with (Encode encoder c).1; [done|].
      generalize (Encode encoder c).1. intros l. induction l; simpl; by f_equal.
    + rewrite (IH (i + 1) blocks' (written ++ c) w1 Hlen).
      * simpl. by rewrite <- app_assoc.
      * intros n c' Hn. destruct (Hstored (S n) c' Hn) as (? & ? & Hget').
        split_and!; [done..|]. intros j store Hj.
        destruct (Hget' _ _ Hj) as (b & ? & Hb). exists b. split; [done|].
        rewrite Hnodes. rewrite <- Hb. do 2 f_equal. lia.
Qed.

(** ** The loop of [Put] *)

Lemma omap_nil_outcomes (evs : list Event) :
  omap evOutcome evs = [] → Forall (λ ev, evOutcome ev = None) evs.
Proof.
  induction evs as [|ev evs IH]; simpl; [by constructor|].
  destruct (evOutcome ev) eqn:Hev; [done|]. intros Hnil. constructor; auto.
Qed.

(** What the loop has done when it returns: the chunks it stored, its
    requests, and the entry it built when it reached the end. *)
Lemma putChunks_inv eStorage encoder objectPath chunks :
  ∀ i entry w res w',
    putChunks eStorage encoder objectPath chunks i entry w = Some (res, w') →
    w_index w' = w_index w ∧ w_index_access w' = w_index_access w ∧
    ∃ n evs, (n ≤ length chunks)%nat ∧
      Forall (λ m, Err m = None) (take n chunks) ∧
      w_trace w' = w_trace w ++ evs ∧
      request <$> evs =
        concat (imap (λ k m, putRequests (diskStorage eStorage)
                               (chunkKey objectPath (i + Z.of_nat k))
                               (Encode encoder (Data m)).1) (take n chunks)) ∧
      match res with
      | inl _ => True
      | inr entry' =>
          n = length chunks ∧ Forall (λ ev, evOutcome ev = None) evs ∧
          entry' = {| Path := Path entry; Md5sum := Md5sum entry; Crc := Crc entry;
                      Blocks := Blocks entry ++
                        imap (λ k m, {| Index := i + Z.of_nat k;
                                        Length := (Encode encoder (Data m)).2 |})
                             chunks |}
      end.
Proof.
  induction chunks as [|chunk rest IH]; intros i entry w res w'; simpl.
  - intros [= <- <-]. split_and!; [done..|]. exists 0%nat, [].
    rewrite !app_nil_r.
    split_and!; first [done | by constructor | by destruct entry].
  - destruct (Err chunk) as [e|] eqn:Herr.
    { intros [= <- <-]. split_and!; [done..|]. exists 0%nat, [].
      rewrite app_nil_r. split_and!; first [done | lia | by constructor]. }
    destruct (Encode encoder (Data chunk)) as [blocks len] eqn:Henc.
    destruct (storeBlocks _ _ _ _) as [[[|e errs] w1]|] eqn:Hstore; [| |done].
    + intros Hrest.
      destruct (storeBlocksFrom_trace _ _ _ _ _ _ _ Hstore)
        as (Hidx & Hlock & evs1 & Htr1 & Hreq1 & Herrs1).
      destruct (IH _ _ _ _ _ Hrest)
        as (Hidx2 & Hlock2 & n & evs2 & Hn & Hall & Htr2 & Hreq2 & Hres).
      split_and!; [congruence..|].
      exists (S n), (evs1 ++ evs2). split_and!.
      * lia.
      * simpl. by constructor.
      * by rewrite Htr2, Htr1, <- app_assoc.
      * rewrite fmap_app, Hreq1, Hreq2.
        change (take (S n) (chunk :: rest)) with (chunk :: take n rest).
        rewrite imap_cons. cbn [concat]. cbn beta.
        rewrite Henc, Nat2Z.inj_0, Z.add_0_r. simpl. f_equal. f_equal.
        apply imap_ext. intros k m _. simpl. do 2 f_equal. lia.
      * destruct res as [|entry']; [done|].
        destruct Hres as (-> & Hnone & ->). split_and!.
        -- done.
        -- apply Forall_app. split; [|done].
           by apply omap_nil_outcomes.
        -- cbn [Path Md5sum Crc Blocks snd].
           rewrite Nat2Z.inj_0, Z.add_0_r, <- app_assoc. cbn [app].
           do 3 f_equal. apply imap_ext. intros k m _. simpl. f_equal. lia.
    + intros [= <- <-].
      destruct (storeBlocksFrom_trace _ _ _ _ _ _ _ Hstore)
        as (Hidx & Hlock & evs1 & Htr1 & Hreq1 & Herrs1).
      split_and!; [done..|].
      exists 1%nat, evs1. split_and!; [lia | | done | | done].
      * simpl. rewrite ?take_0. by repeat constructor.
      * rewrite Hreq1. simpl. rewrite ?take_0. simpl.
        by rewrite ?Henc, ?Z.add_0_r, ?app_nil_r.
Qed.

(** After the loop has reached the end, the shards of every chunk are on
    the slices under the chunk's key. *)
Lemma putChunks_stored eStorage encoder objectPath chunks :
  faithful_store → NoDup (diskStorage eStorage) →
  ∀ i entry w entry' w',
    putChunks eStorage encoder objectPath chunks i entry w = Some (inr entry', w') →
    (∀ n m, chunks !! n = Some m →
       ∀ j store, diskStorage eStorage !! j = Some store →
         ∃ b, (Encode encoder (Data m)).1 !! j = Some b ∧
              node_Get (w_nodes w' store) (chunkKey objectPath (i + Z.of_nat n)) =
                Val (bytes_NewBuffer b)) ∧
    (∀ store key,
       (∀ n, (n < length chunks)%nat → key ≠ chunkKey objectPath (i + Z.of_nat n)) →
       node_Get (w_nodes w' store) key = node_Get (w_nodes w store) key).
Proof.
  intros Hfaith Hnodup.
  induction chunks as [|chunk rest IH]; intros i entry w entry' w'; simpl.
  - intros [= <- <-]. split; [by intros n m Hn | done].
  - destruct (Err chunk) as [e|] eqn:Herr; [done|].
    destruct (Encode encoder (Data chunk)) as [blocks len] eqn:Henc.
    destruct (storeBlocks _ _ _ _) as [[[|e errs] w1]|] eqn:Hstore; [|done..].
    intros Hrest.
    destruct (storeBlocksFrom_nodes _ _ _ _ _ _ Hfaith Hnodup Hstore)
      as (Hin & Hother & _).
    destruct (IH _ _ _ _ _ Hrest) as (Hin2 & Hother2).
    split.
    + intros [|n] m Hn j store Hj; simpl in Hn.
      * injection Hn as <-. rewrite Henc. simpl.
        destruct (Hin _ _ Hj) as (b & Hb & Hget). exists b. split; [done|].
        rewrite Nat2Z.inj_0, Z.add_0_r. rewrite Hother2; [done|].
        intros n _ Heq. apply chunkKey_inj in Heq. lia.
      * destruct (Hin2 _ _ Hn _ _ Hj) as (b & Hb & Hget). exists b. split; [done|].
        rewrite <- Hget. do 2 f_equal. lia.
    + intros store key Hkey. rewrite Hother2, Hother; [done| |].
      * specialize (Hkey 0%nat ltac:(lia)). by rewrite Nat2Z.inj_0, Z.add_0_r in Hkey.
      * intros n Hn. specialize (Hkey (S n) ltac:(lia)).
        by replace (i + 1 + Z.of_nat n) with (i + Z.of_nat (S n)) by lia.
Qed.

(** ** [Put] and [Get] *)

(** [Put] by cases: the parameters are refused, or the loop ran and either
    stopped on an error or finished its entry. *)
Lemma Put_inv eStorage objectPath object w r e' w' :
  Put eStorage objectPath object w = Some ((r, e'), w') →
  (∃ perr, (ParseEncoderParams (K eStorage) (M eStorage) CAUCHY).2 = Some perr ∧
     r = Some perr ∧ e' = eStorage ∧ w' = w) ∨
  (∃ res w1,
     (ParseEncoderParams (K eStorage) (M eStorage) CAUCHY).2 = None ∧
     putChunks eStorage (encoderOf eStorage) objectPath
       (SplitStream object (BlockSize eStorage)) 0
       {| Path := objectPath; Md5sum := "md5sum"; Crc := 24; Blocks := [] |} w
       = Some (res, w1) ∧
     match res with
     | inl e => r = Some e ∧ e' = eStorage ∧ w' = w1
     | inr entry =>
         r = None ∧
         e' = setObjects eStorage (<[objectPath := entry]> (objects eStorage)) ∧
         w' = (ioutil_WriteFile w1 (gob_Encode (objects e'))).1
     end).
Proof.
  unfold Put, encoderOf.
  destruct (ParseEncoderParams (K eStorage) (M eStorage) CAUCHY) as [params [perr|]].
  - intros [= <- <- <-]. left. by exists perr.
  - simpl.
    destruct (putChunks _ _ _ _ _ _ _) as [[[e|entry] w1]|] eqn:Hloop; [| |done].
    + intros [= <- <- <-]. right. by exists (inl e), w1.
    + destruct (ioutil_WriteFile w1 _) as [w2 werr] eqn:Hwrite.
      intros [= <- <- <-]. right. exists (inr entry), w1.
      split_and!; [done..|]. simpl. by rewrite Hwrite.
Qed.

Lemma ioutil_WriteFile_frame w content :
  w_nodes (ioutil_WriteFile w content).1 = w_nodes w ∧
  w_trace (ioutil_WriteFile w content).1 = w_trace w.
Proof. unfold ioutil_WriteFile. by destruct (ia_write (w_index_access w)). Qed.

(** A [Put] that returned nil read its object to the end without error, and
    every message was a data chunk. *)
Lemma Put_nil_messages eStorage objectPath object w e' w' :
  Put eStorage objectPath object w = Some ((None, e'), w') →
  SplitStream object (BlockSize eStorage) =
    (λ d, {| Data := d; Err := None |}) <$> dataChunks object (BlockSize eStorage).
Proof.
  intros HPut. apply Put_inv in HPut as [(perr & _ & ? & _)|(res & w1 & _ & Hloop & Hres)];
    [done|].
  destruct res as [e|entry]; [by destruct Hres|].
  apply putChunks_inv in Hloop as (_ & _ & n & evs & _ & Hall & _ & _ & -> & _).
  rewrite firstn_all in Hall. unfold SplitStream in *.
  destruct (rd_err object) as [e|]; [|by rewrite app_nil_r].
  apply Forall_app in Hall as [_ Hall]. by apply Forall_cons_1 in Hall as [? _].
Qed.

(** [Put] returns whenever every chunk is encoded into at least as many
    shards as the pool has slices. *)
Lemma putChunks_returns eStorage encoder objectPath chunks :
  (∀ m, m ∈ chunks → Err m = None →
     (length (diskStorage eStorage) ≤ length (Encode encoder (Data m)).1)%nat) →
  ∀ i entry w, is_Some (putChunks eStorage encoder objectPath chunks i entry w).
Proof.
  induction chunks as [|chunk rest IH]; intros Hshards i entry w; simpl; [done|].
  destruct (Err chunk) eqn:Herr; [done|].
  pose proof (Hshards chunk ltac:(by left) Herr) as Hlen.
  destruct (Encode encoder (Data chunk)) as [blocks len].
  destruct (storeBlocks _ _ _ _) as [[[|e errs] w1]|] eqn:Hstore.
  - apply IH. intros m Hm. apply Hshards. by right.
  - done.
  - apply storeBlocks_panics in Hstore. simpl in Hlen. lia.
Qed.

Lemma Put_returns eStorage objectPath object w :
  (∀ c, c ∈ dataChunks object (BlockSize eStorage) →
     (length (diskStorage eStorage) ≤ length (Encode (encoderOf eStorage) c).1)%nat) →
  is_Some (Put eStorage objectPath object w).
Proof.
  intros Hshards. unfold Put.
  pose proof (putChunks_returns eStorage (encoderOf eStorage) objectPath
    (SplitStream object (BlockSize eStorage))) as Hloop.
  unfold encoderOf in *.
  destruct (ParseEncoderParams (K eStorage) (M eStorage) CAUCHY) as [params [perr|]];
    [done|]. simpl in *.
  destruct Hloop with (i := 0) (w := w)
    (entry := {| Path := objectPath; Md5sum := "md5sum"%string; Crc := 24; Blocks := [] |})
    as [[[e|entry] w1] ->].
  - intros m Hm Herr. unfold SplitStream in Hm. apply elem_of_app in Hm as [Hm|Hm].
    + apply list_elem_of_fmap in Hm as (c & -> & Hc). by apply Hshards.
    + destruct (rd_err object); [|by apply elem_of_nil in Hm].
      by apply list_elem_of_singleton in Hm as ->.
  - done.
  - by destruct (ioutil_WriteFile w1 _).
Qed.

(** ** The claims of the specification *)

(** C6.  [Get] on a path that is not in the index returns a nil reader and
    a nil error, and asks nothing of the slices: a missing object is an
    empty result, not a failure. *)
Theorem Get_missing_object eStorage objectPath w :
  objects eStorage !! objectPath = None →
  Get eStorage objectPath w = ((None, None), w).
Proof. intros Hmiss. unfold Get. by rewrite Hmiss. Qed.

(** C10.  On an engine built by [NewStorage], [storeBlocks] reads
    [blocks[0]] to [blocks[15]] whatever the length of [blocks]: it panics
    exactly when there are fewer than sixteen shards.  So with a codec that
    yields fewer than sixteen shards per chunk, [Put] of any non-empty
    object panics. *)
Theorem storeBlocks_index_out_of_range w0 rootDir k m blockSize eStorage :
  NewStorage w0 rootDir k m blockSize = Val eStorage →
  (∀ path blocks w,
     storeBlocks eStorage path blocks w = None ↔ (length blocks < 16)%nat) ∧
  (∀ objectPath object w,
     (ParseEncoderParams k m CAUCHY).2 = None →
     (0 < blockSize)%N → rd_data object ≠ [] →
     (∀ c, (length (Encode (encoderOf eStorage) c).1 < 16)%nat) →
     Put eStorage objectPath object w = None).
Proof.
  intros Hnew. apply NewStorage_inv in Hnew as (Hpool & _ & HK & HM & HB).
  assert (length (diskStorage eStorage) = 16%nat) as Hsize by by rewrite Hpool.
  split.
  - intros path blocks w. by rewrite storeBlocks_panics, Hsize.
  - intros objectPath object w Hparse _ Hdata Hfew.
    unfold Put, encoderOf in *. rewrite HK, HM in *.
    destruct (ParseEncoderParams k m CAUCHY) as [params perr].
    simpl in Hparse. subst perr. simpl in Hfew.
    destruct (rd_data object) as [|b rest] eqn:Hbytes; [done|].
    destruct (dataChunks_head object (BlockSize eStorage) _ _ Hbytes) as (c & cs & Hcs).
    unfold SplitStream. rewrite Hcs. simpl.
    specialize (Hfew c). destruct (Encode (NewEncoder params) c) as [blocks len].
    simpl in Hfew.
    assert (storeBlocks eStorage (chunkKey objectPath 0) blocks w = None) as ->; [|done].
    apply storeBlocks_panics. lia.
Qed.

(** A [Put] that returned after a failure: it returned an error and left
    the engine and the index file alone. *)
Lemma Put_failure_inv eStorage objectPath object w r e' w' :
  Put eStorage objectPath object w = Some ((r, e'), w') →
  (∃ m, m ∈ SplitStream object (BlockSize eStorage) ∧ Err m ≠ None) ∨
  (∃ evs ev, w_trace w' = w_trace w ++ evs ∧ ev ∈ evs ∧ evOutcome ev ≠ None) →
  (∃ e, r = Some e) ∧ e' = eStorage ∧ w_index w' = w_index w ∧
  ∀ rootDir k m blockSize reopened,
    NewStorage w' rootDir k m blockSize = Val reopened →
    loadIndex w = Val (objects reopened) ∧
    (objects eStorage !! objectPath = None → loadIndex w = Val (objects eStorage) →
     objects reopened !! objectPath = None).
Proof.
  intros HPut Hfail.
  assert ((∃ e, r = Some e) ∧ e' = eStorage ∧ w_index w' = w_index w ∧
          w_index_access w' = w_index_access w)
    as (Hr & He & Hidx & Hacc).
  { pose proof HPut as Hcases.
    apply Put_inv in Hcases as [(perr & _ & -> & -> & ->)|(res & w1 & _ & Hloop & Hres)];
      [by eauto|].
    pose proof (putChunks_inv _ _ _ _ _ _ _ _ _ Hloop)
      as (Hidx & Hacc & n & evs & _ & Hall & Htr & _ & Hend).
    destruct res as [e|entry].
    { destruct Hres as (-> & -> & ->). by eauto. }
    exfalso. destruct Hres as (-> & _ & ->), Hend as (-> & Hnone & _).
    destruct Hfail as [(m & Hm & Herr)|(evs' & ev & Htr' & Hev & Hout)].
    - rewrite firstn_all in Hall. by apply (proj1 (list.Forall_forall _ _) Hall) in Hm.
    - destruct (ioutil_WriteFile_frame w1 (gob_Encode (objects e'))) as [_ Hsame].
      rewrite Hsame, Htr in Htr'. apply app_inv_head in Htr' as ->.
      by apply (proj1 (list.Forall_forall _ _) Hnone) in Hev. }
  split_and!; [done..|].
  intros rootDir k m blockSize reopened Hnew.
  apply NewStorage_inv in Hnew as (_ & Hload & _).
  unfold loadIndex in *. rewrite Hidx, Hacc in Hload. split; [done|].
  intros Hmiss Hbefore. rewrite Hbefore in Hload. by injection Hload as <-.
Qed.

(** C3, amended.  On an engine whose codec yields, for every chunk of the
    object, at least as many shards as the pool has slices, [Put] returns;
    and when the chunker reported an error or a write to a slice failed in
    the call, it returns a non-nil error, the engine is as it was (no
    entry created or replaced) and so is the index file: an engine reopened
    on the root loads the index there was before the call. *)
Theorem Put_failure_leaves_index eStorage objectPath object w :
  (∀ c, c ∈ dataChunks object (BlockSize eStorage) →
     (length (diskStorage eStorage) ≤ length (Encode (encoderOf eStorage) c).1)%nat) →
  ∃ r e' w',
    Put eStorage objectPath object w = Some ((r, e'), w') ∧
    ((∃ m, m ∈ SplitStream object (BlockSize eStorage) ∧ Err m ≠ None) ∨
     (∃ evs ev, w_trace w' = w_trace w ++ evs ∧ ev ∈ evs ∧ evOutcome ev ≠ None) →
     (∃ e, r = Some e) ∧ e' = eStorage ∧ w_index w' = w_index w ∧
     ∀ rootDir k m blockSize reopened,
       NewStorage w' rootDir k m blockSize = Val reopened →
       loadIndex w = Val (objects reopened) ∧
       (objects eStorage !! objectPath = None →
        loadIndex w = Val (objects eStorage) →
        objects reopened !! objectPath = None)).
Proof.
  intros Hshards.
  destruct (Put_returns eStorage objectPath object w Hshards) as [[[r e'] w'] HPut].
  exists r, e', w'. split; [done|]. by apply Put_failure_inv.
Qed.

(** C8.  The key of chunk [i] of [objectPath] is [objectPath + "$" + i] for
    every slice, on writes and on reads.  A [Put] that returns has written,
    chunk after chunk, shard [j] of the chunk to the slice at position [j]
    of the pool; a [Get] has read, chunk after chunk, every slice of the
    pool in order; and [getBlockSlices] returns one response per slice, in
    the order of the pool, which [NewStorage] numbers 0 to 15. *)
Theorem shard_keys_and_order eStorage objectPath :
  (∀ object w r e' w',
     Put eStorage objectPath object w = Some ((r, e'), w') →
     ∃ n evs, (n ≤ length (dataChunks object (BlockSize eStorage)))%nat ∧
       (r = None → n = length (dataChunks object (BlockSize eStorage))) ∧
       w_trace w' = w_trace w ++ evs ∧
       request <$> evs =
         concat (imap (λ i c, putRequests (diskStorage eStorage)
                                (chunkKey objectPath (Z.of_nat i))
                                (Encode (encoderOf eStorage) c).1)
                   (take n (dataChunks object (BlockSize eStorage))))) ∧
  (∀ w, ∃ n evs,
     (n ≤ length (default [] (Blocks <$> objects eStorage !! objectPath)))%nat ∧
     w_trace (Get eStorage objectPath w).2 = w_trace w ++ evs ∧
     request <$> evs =
       concat ((λ i, getRequests (diskStorage eStorage)
                       (chunkKey objectPath (Z.of_nat i))) <$> seq 0 n)) ∧
  (∀ key w,
     (getBlockSlices eStorage key w).1 =
       (λ store, fetch (w_nodes w store) key) <$> diskStorage eStorage) ∧
  (∀ w0 rootDir k m blockSize,
     NewStorage w0 rootDir k m blockSize = Val eStorage →
     diskStorage eStorage = seq 0 16).
Proof.
  split_and!.
  - intros object w r e' w' HPut.
    apply Put_inv in HPut as [(perr & _ & -> & -> & ->)|(res & w1 & _ & Hloop & Hres)].
    { exists 0%nat, []. rewrite app_nil_r, take_0. split_and!; [lia | done..]. }
    apply putChunks_inv in Hloop as (_ & _ & n & evs & Hn & Hall & Htr & Hreq & Hend).
    set (cs := dataChunks object (BlockSize eStorage)) in *.
    assert (take n (SplitStream object (BlockSize eStorage)) =
            (λ d, {| Data := d; Err := None |}) <$> take n cs ∧ (n ≤ length cs)%nat)
      as [Htake Hle].
    { unfold SplitStream in *. fold cs in Hall, Hn |- *.
      destruct (decide (n ≤ length cs)%nat) as [Hle|Hgt].
      - split; [|done]. rewrite take_app_le by by rewrite length_fmap.
        by rewrite fmap_take.
      - exfalso. destruct (rd_err object) as [e|].
        + assert ((((λ d, {| Data := d; Err := None |}) <$> cs)
                   ++ [{| Data := []; Err := Some e |}]) !! length cs
                  = Some {| Data := []; Err := Some e |}) as Hlast.
          { rewrite lookup_app_r by by rewrite length_fmap.
            by rewrite length_fmap, Nat.sub_diag. }
          assert (take n (((λ d, {| Data := d; Err := None |}) <$> cs)
                   ++ [{| Data := []; Err := Some e |}]) !! length cs
                  = Some {| Data := []; Err := Some e |}) as Hin.
          { rewrite lookup_take_lt by lia. done. }
          apply (proj1 (Forall_lookup _ _) Hall) in Hin. done.
        + rewrite app_nil_r, length_fmap in Hn. lia. }
    exists n, evs. split_and!; [done| |  | ].
    + intros ->. destruct res as [e|entry]; [by destruct Hres|].
      destruct Hend as (Hlen & _). subst n cs. clear -Hle.
      unfold SplitStream in *. rewrite length_app, length_fmap in *. lia.
    + destruct res as [e|entry].
      * by destruct Hres as (_ & _ & ->).
      * destruct Hres as (_ & _ & ->).
        destruct (ioutil_WriteFile_frame w1 (gob_Encode (objects e'))) as [_ Hsame].
        by rewrite Hsame.
    + by rewrite Hreq, Htake, imap_fmap.
  - intros w. unfold Get.
    destruct (objects eStorage !! objectPath) as [entry|]; simpl.
    + unfold readObject.
      destruct (ParseEncoderParams (K eStorage) (M eStorage) CAUCHY) as [params perr].
      destruct (readBlocks_trace eStorage (NewEncoder params) perr objectPath 0
                  (Blocks entry) [] w) as (n & Hn & _ & _ & evs & Htr & Hreq).
      exists n, evs. split; [done|].
      destruct (readBlocks _ _ _ _ _ _ _ _) as [reader w']. simpl in *.
      split; [done|]. by rewrite Hreq.
    + exists 0%nat, []. simpl. by rewrite app_nil_r.
  - intros key w. unfold getBlockSlices.
    by destruct (getBlockSlicesFrom_spec (diskStorage eStorage) key w) as (w' & -> & _).
  - intros w0 rootDir k m blockSize Hnew. by apply NewStorage_inv in Hnew as (? & _).
Qed.

(** C9.  After a [Put] that returned nil, the entry stored under the path
    lists one block per chunk, in the order of the chunks: block [i] has
    index [i] and the length of chunk [i] before encoding (the codec
    returns that length with the shards).  With a block size of 4096, an
    object of 10000 bytes gives blocks of lengths 4096, 4096 and 1808. *)
Theorem Put_entry_blocks eStorage objectPath object w e' w' :
  (∀ c, (Encode (encoderOf eStorage) c).2 = Z.of_nat (length c)) →
  Put eStorage objectPath object w = Some ((None, e'), w') →
  ∃ entry, objects e' !! objectPath = Some entry ∧
    Path entry = objectPath ∧
    Blocks entry =
      imap (λ i c, {| Index := Z.of_nat i; Length := Z.of_nat (length c) |})
        (dataChunks object (BlockSize eStorage)) ∧
    (BlockSize eStorage = 4096%N → length (rd_data object) = 10000%nat →
     Blocks entry = [ {| Index := 0; Length := 4096 |};
                      {| Index := 1; Length := 4096 |};
                      {| Index := 2; Length := 1808 |} ]).
Proof.
  intros Hlen HPut. pose proof (Put_nil_messages _ _ _ _ _ _ HPut) as Hmsgs.
  apply Put_inv in HPut as [(perr & _ & ? & _)|(res & w1 & _ & Hloop & Hres)]; [done|].
  destruct res as [e|entry]; [by destruct Hres|]. destruct Hres as (_ & -> & _).
  apply putChunks_inv in Hloop as (_ & _ & n & evs & _ & _ & _ & _ & _ & _ & ->).
  eexists. split; [apply lookup_insert_eq|]. cbn [Path Blocks app].
  split; [done|].
  assert (imap (λ k m, {| Index := 0 + Z.of_nat k;
                          Length := (Encode (encoderOf eStorage) (Data m)).2 |})
            (SplitStream object (BlockSize eStorage)) =
          imap (λ i c, {| Index := Z.of_nat i; Length := Z.of_nat (length c) |})
            (dataChunks object (BlockSize eStorage))) as ->.
  { rewrite Hmsgs, imap_fmap. apply imap_ext. intros i c _. simpl. by rewrite Hlen. }
  split; [done|]. intros Hsize Hbytes.
  assert (∀ cs : list bytes,
            imap (λ i c, {| Index := Z.of_nat i; Length := Z.of_nat (length c) |}) cs =
            imap (λ i l, {| Index := Z.of_nat i; Length := Z.of_nat l |}) (length <$> cs))
    as -> by (intros cs; by rewrite imap_fmap).
  unfold dataChunks. rewrite chunksOf_lengths, Hsize, Hbytes. by vm_compute.
Qed.

(** C1, amended.  On an engine whose slices keep what is put, and whose
    codec yields one shard per slice of the pool and decodes what it
    encoded, a [Get] that follows a [Put] that returned nil yields a
    stream of exactly the bytes of the object, ended by EOF: for every
    length of the object, a multiple of the block size or not.  The
    slices of the pool are distinct, as [NewStorage] makes them. *)
Theorem Put_Get_roundtrip eStorage objectPath object w e1 w1 :
  faithful_store → NoDup (diskStorage eStorage) → (0 < BlockSize eStorage)%N →
  (∀ c, c ∈ dataChunks object (BlockSize eStorage) →
     length (Encode (encoderOf eStorage) c).1 = length (diskStorage eStorage) ∧
     Decode (encoderOf eStorage) (Encode (encoderOf eStorage) c).1
       (Encode (encoderOf eStorage) c).2 = (c, None)) →
  Put eStorage objectPath object w = Some ((None, e1), w1) →
  ∃ w2, Get e1 objectPath w1 =
          ((Some (bytes_NewBuffer (rd_data object)), None), w2).
Proof.
  intros Hfaith Hnodup Hsize Hcodec HPut.
  pose proof (Put_nil_messages _ _ _ _ _ _ HPut) as Hmsgs.
  apply Put_inv in HPut as [(perr & _ & ? & _)|(res & w0 & Hparse & Hloop & Hres)];
    [done|].
  destruct res as [e|entry]; [by destruct Hres|]. destruct Hres as (_ & -> & ->).
  pose proof (putChunks_inv _ _ _ _ _ _ _ _ _ Hloop)
    as (_ & _ & n & evs & _ & _ & _ & _ & _ & _ & Hentry).
  destruct (putChunks_stored _ _ _ _ Hfaith Hnodup _ _ _ _ _ Hloop) as (Hstored & _).
  unfold Get. cbn [objects setObjects]. rewrite lookup_insert_eq.
  unfold readObject. cbn [K M setObjects].
  unfold encoderOf in *.
  destruct (ParseEncoderParams (K eStorage) (M eStorage) CAUCHY) as [params perr].
  simpl in Hparse. subst perr. cbn [fst] in *.
  set (e1 := setObjects eStorage _). set (wf := (ioutil_WriteFile w0 _).1).
  pose proof (readBlocks_stored e1 (NewEncoder params) None objectPath
                (dataChunks object (BlockSize eStorage)) 0 (Blocks entry) [] wf) as Hread.
  destruct (readBlocks e1 (NewEncoder params) None objectPath 0 (Blocks entry) [] wf)
    as [reader w2].
  exists w2. simpl in Hread. rewrite Hread.
  - by rewrite dataChunks_concat.
  - rewrite Hentry. cbn [Blocks app]. rewrite Hmsgs, imap_fmap.
    apply Forall2_lookup. intros i. rewrite list_lookup_imap.
    destruct (dataChunks object (BlockSize eStorage) !! i); by constructor.
  - intros k c Hk.
    destruct (Hcodec c) as [Hshards Hdec]; [by eapply list_elem_of_lookup_2|].
    split_and!; [done..|]. intros j store Hj.
    destruct (Hstored k {| Data := c; Err := None |}) with (j := j) (store := store)
      as (b & Hb & Hget); [|done|].
    + by rewrite Hmsgs, list_lookup_fmap, Hk.
    + exists b. split; [done|]. subst wf.
      by rewrite (proj1 (ioutil_WriteFile_frame w0 _)).
Qed.

(** C2, amended.  Reading a chunk tolerates no lost shard: when any slice
    of the pool answers the chunk's key with an error, the stream ends
    there, without the chunk and without the chunks after it, however many
    slices answered well; the chunk is decoded, from the answers of all
    the slices in the order of the pool, only when none is an error, and
    then the stream goes on with the bytes the codec returned. *)
Theorem read_needs_every_shard eStorage encoder perr objectPath i chunk rest written w :
  let slices := (λ store, fetch (w_nodes w store) (chunkKey objectPath i))
                  <$> diskStorage eStorage in
  (Exists (λ slice, err slice ≠ None) slices →
   (readBlocks eStorage encoder perr objectPath i (chunk :: rest) written w).1 =
     {| rd_data := written; rd_err := perr |}) ∧
  (Forall (λ slice, err slice = None) slices →
   ∀ d, Decode encoder (data <$> slices) (Length chunk) = (d, None) →
   ∃ w1, w_nodes w1 = w_nodes w ∧
     readBlocks eStorage encoder perr objectPath i (chunk :: rest) written w =
     readBlocks eStorage encoder perr objectPath (i + 1) rest (written ++ d) w1).
Proof.
  intros slices. subst slices. split.
  - intros Hbad. apply readBlocks_slice_error.
    exact (proj1 (Exists_fmap _ (λ slice, err slice ≠ None) _) Hbad).
  - intros Hall d Hdec. by apply readBlocks_step.
Qed.

End Properties.

(** ** The reference collaborators *)

Lemma mem_faithful : faithful_store (Node := MemNode).
Proof.
  intros s s' key b Hput key'. simpl in *. unfold mem_Put, mem_Get in *.
  destruct (offline s) eqn:Hoff; [done|]. simpl in Hput.
  injection Hput as <-. simpl.
  case_decide as Hkey.
  - subst key'. by rewrite lookup_insert_eq.
  - by rewrite lookup_insert_ne.
Qed.

Lemma stripe_Encode_shards k m chunk :
  length (stripe_Encode (Some {| sp_k := k; sp_m := m |}) chunk).1 = (k + m)%nat.
Proof.
  simpl. by rewrite length_app, length_fmap, length_seq, length_replicate.
Qed.

Lemma stripe_Encode_length p chunk :
  (stripe_Encode p chunk).2 = Z.of_nat (length chunk).
Proof. by destruct p. Qed.

(** The reference codec decodes what it encoded. *)
Lemma slices_concat {A} (size k : nat) (l : list A) :
  length l = (k * size)%nat →
  concat ((λ j, take size (drop (j * size) l)) <$> seq 0 k) = l.
Proof.
  revert l. induction k as [|k IH]; intros l Hlen.
  - by destruct l.
  - cbn [seq fmap list_fmap concat]. rewrite <- fmap_S_seq, <- list_fmap_compose.
    transitivity (take size l ++ drop size l); [|apply take_drop].
    f_equal.
    rewrite <- (IH (drop size l)) by (rewrite length_drop; lia).
    f_equal. apply list_fmap_ext. intros _ j _. simpl.
    by rewrite drop_drop.
Qed.

Lemma slices_lengths {A} (size k : nat) (l : list A) :
  length l = (k * size)%nat →
  Forall (λ s, length s = size) ((λ j, take size (drop (j * size) l)) <$> seq 0 k).
Proof.
  intros Hlen. apply Forall_fmap, list.Forall_forall. intros j Hj.
  apply elem_of_seq in Hj. simpl. rewrite length_take, length_drop. nia.
Qed.

Lemma parity_length size (shards : list (list Byte.byte)) :
  Forall (λ s, length s = size) shards →
  length (foldr (zip_with byte_xor) (replicate size Byte.x00) shards) = size.
Proof.
  induction 1 as [|s shards Hs _ IH]; simpl.
  - by rewrite length_replicate.
  - rewrite length_zip_with. lia.
Qed.

Lemma stripe_roundtrip k m chunk :
  (1 ≤ k)%nat →
  let p := Some {| sp_k := k; sp_m := m |} in
  stripe_Decode p (stripe_Encode p chunk).1 (stripe_Encode p chunk).2 = (chunk, None).
Proof.
  intros Hk p. subst p. unfold stripe_Encode. cbn [sp_k sp_m fst snd].
  set (size := ((length chunk + k - 1) / k)%nat).
  set (padded := chunk ++ replicate (k * size - length chunk) Byte.x00).
  set (shards := (λ j, take size (drop (j * size) padded)) <$> seq 0 k).
  set (parity := foldr (zip_with byte_xor) (replicate size Byte.x00) shards).
  assert (length chunk ≤ k * size)%nat as Hsize.
  { subst size. pose proof (Nat.div_mod_eq (length chunk + k - 1) k).
    pose proof (Nat.mod_upper_bound (length chunk + k - 1) k). lia. }
  assert (length padded = (k * size)%nat) as Hpad.
  { subst padded. rewrite length_app, length_replicate. lia. }
  pose proof (slices_lengths size k padded Hpad) as Hshards. fold shards in Hshards.
  assert (length shards = k) as Hcount by (subst shards; by rewrite length_fmap, length_seq).
  unfold stripe_Decode. cbn [sp_k].
  rewrite decide_False by (rewrite length_app; lia).
  assert (length (default [] (head (shards ++ replicate m parity))) = size) as Hhead.
  { destruct shards as [|s shards']; [simpl in Hcount; lia|].
    simpl. by apply Forall_cons_1 in Hshards as [? _]. }
  rewrite decide_True.
  - rewrite take_app_length' by done. subst shards.
    rewrite slices_concat by done. rewrite Nat2Z.id. subst padded.
    by rewrite take_app_length.
  - rewrite Hhead. apply Forall_app. split; [done|].
    apply Forall_replicate. by apply parity_length.
Qed.

Example fresh_NewStorage :
  NewStorage fresh_root "root" 10 6 4096 = Val (fresh_engine 10 6 4096).
Proof. reflexivity. Qed.

(** The scenario of the specification: K = 10, M = 6, blocks of 4096
    bytes, an object of 10000 bytes. *)
Example scenario_10000 :
  let '(e1, w1) :=
    after_Put (fresh_engine 10 6 4096) "a" (sample_object 10000) fresh_root in
  Blocks <$> objects e1 !! "a" =
    Some [ {| Index := 0; Length := 4096 |}; {| Index := 1; Length := 4096 |};
           {| Index := 2; Length := 1808 |} ] ∧
  Get_result e1 "a" w1 = (Some (sample_object 10000), None) ∧
  reopened_entry w1 10 6 4096 "a" = Val (objects e1 !! "a").
Proof. vm_compute. done. Qed.

(** ** The claims on concrete roots *)

Lemma Get_missing_object_witness :
  objects (fresh_engine 10 6 4096) !! "a" = None ∧
  Get (fresh_engine 10 6 4096) "a" fresh_root = ((None, None), fresh_root).
Proof.
  split; [reflexivity|].
  apply (Get_missing_object (fresh_engine 10 6 4096) "a" fresh_root). reflexivity.
Defined.

Lemma storeBlocks_index_out_of_range_witness :
  NewStorage fresh_root "root" 2 1 4096 = Val (fresh_engine 2 1 4096) ∧
  storeBlocks (fresh_engine 2 1 4096) "a$0" [[]; []; []] fresh_root = None ∧
  Put (fresh_engine 2 1 4096) "a" (sample_object 10) fresh_root = None.
Proof.
  pose proof (storeBlocks_index_out_of_range fresh_root "root" 2 1 4096
                (fresh_engine 2 1 4096) eq_refl) as [Hstore HPut].
  split; [reflexivity|]. split.
  - apply Hstore. simpl. lia.
  - apply HPut; [reflexivity | lia | discriminate |].
    intros c.
    change (length (stripe_Encode (Some {| sp_k := 2; sp_m := 1 |}) c).1 < 16)%nat.
    rewrite stripe_Encode_shards. lia.
Defined.

Lemma Put_failure_leaves_index_witness :
  let e0 := fresh_engine 10 6 4 in
  let w0 := take_offline fresh_root 5 in
  ∃ r e' w',
    Put e0 "a" (sample_object 6) w0 = Some ((r, e'), w') ∧
    ((∃ m, m ∈ SplitStream (sample_object 6) (BlockSize e0) ∧ Err m ≠ None) ∨
     (∃ evs ev, w_trace w' = w_trace w0 ++ evs ∧ ev ∈ evs ∧ evOutcome ev ≠ None) →
     (∃ e, r = Some e) ∧ e' = e0 ∧ w_index w' = w_index w0 ∧
     ∀ rootDir k m blockSize reopened,
       NewStorage w' rootDir k m blockSize = Val reopened →
       loadIndex w0 = Val (objects reopened) ∧
       (objects e0 !! "a" = None → loadIndex w0 = Val (objects e0) →
        objects reopened !! "a" = None)).
Proof.
  intros e0 w0.
  apply (Put_failure_leaves_index e0 "a" (sample_object 6) w0).
  intros c _.
  change (16 ≤ length (stripe_Encode (Some {| sp_k := 10; sp_m := 6 |}) c).1)%nat.
  rewrite stripe_Encode_shards. lia.
Defined.

(** A write to a slice that fails: slice 5 is offline. *)
Example Put_backend_failure :
  let w0 := take_offline fresh_root 5 in
  let e1 := (after_Put (fresh_engine 10 6 4) "a" (sample_object 6) w0).1 in
  let w1 := (after_Put (fresh_engine 10 6 4) "a" (sample_object 6) w0).2 in
  Put (fresh_engine 10 6 4) "a" (sample_object 6) w0
    = Some ((Some "slice offline"%string, e1), w1) ∧
  evOutcome <$> w_trace w1 !! 5%nat = Some (Some "slice offline"%string) ∧
  e1 = fresh_engine 10 6 4 ∧ w_index w1 = w_index w0 ∧
  reopened_entry (bring_online w1 5) 10 6 4 "a" = Val None.
Proof.
  intros w0 e1 w1.
  split; [vm_compute; reflexivity|].
  split; [vm_compute; reflexivity|].
  split; [vm_compute; reflexivity|].
  split; vm_compute; reflexivity.
Qed.

(** The chunker's error, too: an object that fails after its first bytes. *)
Example Put_chunker_error :
  let w0 := fresh_root in
  let e1 := (after_Put (fresh_engine 10 6 4) "a" (failing_object (rd_data (sample_object 6))) w0).1 in
  let w1 := (after_Put (fresh_engine 10 6 4) "a" (failing_object (rd_data (sample_object 6))) w0).2 in
  Put (fresh_engine 10 6 4) "a" (failing_object (rd_data (sample_object 6))) w0
    = Some ((Some "unexpected EOF"%string, e1), w1) ∧
  objects e1 !! "a" = None ∧ length (w_trace w1) = 32%nat ∧
  reopened_entry w1 10 6 4 "a" = Val None.
Proof. vm_compute. repeat split. Qed.

Lemma shard_keys_and_order_witness :
  let e0 := fresh_engine 10 6 4 in
  let e1 := (after_Put e0 "a" (sample_object 6) fresh_root).1 in
  let w1 := (after_Put e0 "a" (sample_object 6) fresh_root).2 in
  Put e0 "a" (sample_object 6) fresh_root = Some ((None, e1), w1) ∧
  (request <$> w_trace w1) !! 19%nat = Some (3%nat, "a$1"%string, Some [Byte.x00]) ∧
  (request <$> w_trace (Get e1 "a" w1).2) !! (32 + 19)%nat
    = Some (3%nat, "a$1"%string, None) ∧
  diskStorage e0 = seq 0 16.
Proof.
  intros e0 e1 w1.
  assert (Put e0 "a" (sample_object 6) fresh_root = Some ((None, e1), w1)) as HPut
    by (vm_compute; reflexivity).
  destruct (shard_keys_and_order e0 "a") as (Hw & Hr & Ho & Hn).
  split; [exact HPut|].
  split; [vm_compute; reflexivity|].
  split; [vm_compute; reflexivity|].
  exact (Hn fresh_root "root"%string 10 6 4%N eq_refl).
Defined.

Lemma Put_entry_blocks_witness :
  let e0 := fresh_engine 10 6 4 in
  let e1 := (after_Put e0 "a" (sample_object 6) fresh_root).1 in
  let w1 := (after_Put e0 "a" (sample_object 6) fresh_root).2 in
  Put e0 "a" (sample_object 6) fresh_root = Some ((None, e1), w1) ∧
  ∃ entry, objects e1 !! "a" = Some entry ∧
    Blocks entry = [ {| Index := 0; Length := 4 |}; {| Index := 1; Length := 2 |} ].
Proof.
  intros e0 e1 w1.
  assert (Put e0 "a" (sample_object 6) fresh_root = Some ((None, e1), w1)) as HPut
    by (vm_compute; reflexivity).
  split; [exact HPut|].
  destruct (Put_entry_blocks e0 "a" (sample_object 6) fresh_root e1 w1)
    as (entry & Hentry & _ & Hblocks & _).
  - intros c. apply stripe_Encode_length.
  - exact HPut.
  - exists entry. split; [exact Hentry|]. rewrite Hblocks. vm_compute. reflexivity.
Defined.

Lemma Put_Get_roundtrip_witness :
  let e0 := fresh_engine 10 6 4 in
  let e1 := (after_Put e0 "a" (sample_object 10) fresh_root).1 in
  let w1 := (after_Put e0 "a" (sample_object 10) fresh_root).2 in
  Put e0 "a" (sample_object 10) fresh_root = Some ((None, e1), w1) ∧
  ∃ w2, Get e1 "a" w1 =
          ((Some (bytes_NewBuffer (rd_data (sample_object 10))), None), w2).
Proof.
  intros e0 e1 w1.
  assert (Put e0 "a" (sample_object 10) fresh_root = Some ((None, e1), w1)) as HPut
    by (vm_compute; reflexivity).
  split; [exact HPut|].
  assert (NoDup (diskStorage e0)) as Hnodup by apply NoDup_seq.
  assert (0 < BlockSize e0)%N as Hsize by reflexivity.
  assert (∀ c, c ∈ dataChunks (sample_object 10) (BlockSize e0) →
     length (Encode (encoderOf e0) c).1 = length (diskStorage e0) ∧
     Decode (encoderOf e0) (Encode (encoderOf e0) c).1
       (Encode (encoderOf e0) c).2 = (c, None)) as Hcodec.
  { clear. intros c Hc. vm_compute in Hc.
    repeat (apply elem_of_cons in Hc as [->|Hc]; [vm_compute; split; reflexivity|]).
    by apply elem_of_nil in Hc. }
  exact (Put_Get_roundtrip e0 "a" (sample_object 10) fresh_root e1 w1
           mem_faithful Hnodup Hsize Hcodec HPut).
Defined.

Lemma read_needs_every_shard_witness :
  let e0 := fresh_engine 10 6 4 in
  let e1 := (after_Put e0 "a" (sample_object 6) fresh_root).1 in
  let w1 := take_offline (after_Put e0 "a" (sample_object 6) fresh_root).2 3 in
  Exists (λ slice, err slice ≠ None)
    ((λ store, fetch (w_nodes w1 store) (chunkKey "a" 0)) <$> diskStorage e1) ∧
  (readBlocks e1 (encoderOf e1) None "a" 0
     [ {| Index := 0; Length := 4 |}; {| Index := 1; Length := 2 |} ] [] w1).1 =
    {| rd_data := []; rd_err := None |}.
Proof.
  intros e0 e1 w1.
  assert (Exists (λ slice, err slice ≠ None)
    ((λ store, fetch (w_nodes w1 store) (chunkKey "a" 0)) <$> diskStorage e1)) as Hbad.
  { vm_compute. do 3 apply Exists_cons_tl. apply Exists_cons_hd. discriminate. }
  split; [exact Hbad|].
  exact (proj1 (read_needs_every_shard e1 (encoderOf e1) None "a" 0
                  {| Index := 0; Length := 4 |} [ {| Index := 1; Length := 2 |} ] [] w1) Hbad).
Defined.

(** ** Where the code departs from the claims *)

(** C1 as stated fails on the code.  With K = 17 and M = 1 the codec
    yields eighteen shards per chunk and the pool holds sixteen slices:
    [Put] stores the first sixteen and returns nil, the slices keep what
    was put, the codec decodes what it encoded, and yet [Get] hands the
    decoder sixteen shards and its stream ends with the decoder's error,
    without a byte of the object. *)
Lemma roundtrip_fails_beyond_pool :
  let e0 := fresh_engine 17 1 4 in
  let e1 := (after_Put e0 "a" (sample_object 6) fresh_root).1 in
  let w1 := (after_Put e0 "a" (sample_object 6) fresh_root).2 in
  NewStorage fresh_root "root" 17 1 4 = Val e0 ∧
  Put e0 "a" (sample_object 6) fresh_root = Some ((None, e1), w1) ∧
  faithful_store (Node := MemNode) ∧
  (∀ c, Decode (encoderOf e0) (Encode (encoderOf e0) c).1
          (Encode (encoderOf e0) c).2 = (c, None)) ∧
  Get_result e1 "a" w1 =
    (Some {| rd_data := []; rd_err := Some "too few shards"%string |}, None) ∧
  rd_data (sample_object 6) ≠ [].
Proof.
  intros e0 e1 w1.
  split; [reflexivity|].
  split; [vm_compute; reflexivity|].
  split; [exact mem_faithful|].
  split; [intros c; exact (stripe_roundtrip 17 1 c ltac:(lia))|].
  split; [vm_compute; reflexivity|].
  vm_compute. discriminate.
Qed.

(** C2 as stated fails on the code.  K = 10, M = 6: after a [Put] that
    returned nil, slice 3 goes offline.  One slice of sixteen answers with
    an error, the other fifteen return their shards intact, and the stream
    of [Get] ends without the chunk. *)
Lemma one_lost_shard_stops_read :
  let e0 := fresh_engine 10 6 4 in
  let object := sample_object 4 in
  let e1 := (after_Put e0 "a" object fresh_root).1 in
  let w1 := take_offline (after_Put e0 "a" object fresh_root).2 3 in
  Put e0 "a" object fresh_root =
    Some ((None, e1), (after_Put e0 "a" object fresh_root).2) ∧
  (∀ c, Decode (encoderOf e0) (Encode (encoderOf e0) c).1
          (Encode (encoderOf e0) c).2 = (c, None)) ∧
  (λ store, fetch (w_nodes w1 store) (chunkKey "a" 0)) <$> diskStorage e1 =
    <[3%nat := {| data := []; err := Some "slice offline"%string |}]>
      ((λ b, {| data := b; err := None |}) <$> (Encode (encoderOf e0) (rd_data object)).1) ∧
  Get_result e1 "a" w1 = (Some {| rd_data := []; rd_err := None |}, None) ∧
  rd_data object ≠ [].
Proof.
  intros e0 object e1 w1.
  split; [vm_compute; reflexivity|].
  split; [intros c; exact (stripe_roundtrip 10 6 c ltac:(lia))|].
  split; [vm_compute; reflexivity|].
  split; [vm_compute; reflexivity|].
  vm_compute. discriminate.
Qed.

(** C3 as stated fails on the code.  K = 2, M = 1: the codec yields three
    shards per chunk and the pool holds sixteen slices.  The chunker
    reports an error after the bytes of the object, or the write to slice 0
    fails, and [Put] does not return an error: it panics in [storeBlocks]. *)
Lemma Put_failure_may_panic :
  let e0 := fresh_engine 2 1 4 in
  let object := failing_object (rd_data (sample_object 6)) in
  NewStorage fresh_root "root" 2 1 4 = Val e0 ∧
  (∃ m, m ∈ SplitStream object (BlockSize e0) ∧ Err m ≠ None) ∧
  Put e0 "a" object fresh_root = None ∧
  (Encode (encoderOf e0) (take 4 (rd_data (sample_object 6)))).1 !! 0%nat
    = Some [Byte.x00; Byte.x01] ∧
  (storageRoutine 0 (chunkKey "a" 0) (bytes_NewBuffer [Byte.x00; Byte.x01])
     (take_offline fresh_root 0)).1 = Some "slice offline"%string ∧
  Put e0 "a" (sample_object 6) (take_offline fresh_root 0) = None.
Proof.
  intros e0 object.
  split; [reflexivity|].
  split.
  { exists {| Data := []; Err := Some "unexpected EOF"%string |}.
    split; [|discriminate]. vm_compute. do 2 right. left. }
  split; [vm_compute; reflexivity|].
  split; [vm_compute; reflexivity|].
  split; vm_compute; reflexivity.
Qed.

(** C4: a [Put] that returns nil although the snapshot was not written.
    The index file of the root cannot be written (it is read-only);
    [ioutil.WriteFile] fails and [Put] drops its error.  The engine holds
    the new entry, the index file is as it was, and an engine reopened on
    the root does not know the object. *)
Theorem Put_nil_without_snapshot :
  let e0 := fresh_engine 10 6 4 in
  let e1 := (after_Put e0 "a" (sample_object 6) fresh_root).1 in
  let w1 := lock_index (after_Put e0 "a" (sample_object 6) fresh_root).2 in
  let e2 := (after_Put e1 "b" (sample_object 5) w1).1 in
  let w2 := (after_Put e1 "b" (sample_object 5) w1).2 in
  Put e1 "b" (sample_object 5) w1 = Some ((None, e2), w2) ∧
  (ioutil_WriteFile w1 (gob_Encode (objects e2))).2 = Some "permission denied"%string ∧
  Blocks <$> objects e2 !! "b" = Some [ {| Index := 0; Length := 4 |};
                                        {| Index := 1; Length := 1 |} ] ∧
  w_index w2 = w_index w1 ∧
  reopened_entry w2 10 6 4 "b" = Val None ∧
  reopened_entry w2 10 6 4 "a" = Val (objects e1 !! "a").
Proof.
  intros e0 e1 w1 e2 w2.
  split; [vm_compute; reflexivity|].
  split; [vm_compute; reflexivity|].
  split; [vm_compute; reflexivity|].
  split; [vm_compute; reflexivity|].
  split; vm_compute; reflexivity.
Qed.

(** C5: [NewStorage] with k = 2 and m = 1 succeeds and provisions sixteen
    slices, not three; the codec built from the same parameters yields
    three shards per chunk. *)
Theorem NewStorage_pool_ignores_parameters :
  ∃ eStorage,
    NewStorage fresh_root "root" 2 1 4096 = Val eStorage ∧
    length (diskStorage eStorage) = 16%nat ∧
    K eStorage + M eStorage = 3 ∧
    length (Encode (encoderOf eStorage) (rd_data (sample_object 10))).1 = 3%nat.
Proof.
  exists (fresh_engine 2 1 4096). split; [reflexivity|].
  split; [reflexivity|]. split; [reflexivity|]. vm_compute. reflexivity.
Qed.

(** C7: the error of a failed shard read does not reach the consumer.
    After a [Put] of two chunks, slice 3 loses its shard of chunk 1.  Its
    read fails with "no such object"; the stream of [Get] delivers chunk 0
    and then ends with EOF, as if the object were complete. *)
Theorem read_error_reported_as_EOF :
  let e0 := fresh_engine 10 6 4 in
  let e1 := (after_Put e0 "a" (sample_object 6) fresh_root).1 in
  let w1 := lose_blob (after_Put e0 "a" (sample_object 6) fresh_root).2 3 "a$1" in
  Put e0 "a" (sample_object 6) fresh_root =
    Some ((None, e1), (after_Put e0 "a" (sample_object 6) fresh_root).2) ∧
  (ParseEncoderParams (K e1) (M e1) CAUCHY).2 = None ∧
  (getSlice 3 (chunkKey "a" 1) w1).1 =
    {| data := []; err := Some "no such object"%string |} ∧
  Get_result e1 "a" w1 =
    (Some {| rd_data := take 4 (rd_data (sample_object 6)); rd_err := None |}, None).
Proof.
  intros e0 e1 w1.
  split; [vm_compute; reflexivity|].
  split; [vm_compute; reflexivity|].
  split; vm_compute; reflexivity.
Qed.

(** * Further properties of the code *)

(** ** Shard keys *)

Lemma no_dollar_pretty_N_go x s : no_dollar s → no_dollar (pretty_N_go x s).
Proof.
  revert s. induction (N.lt_wf_0 x) as [x _ IH]; intros s Hs.
  assert (x = 0 ∨ 0 < x)%N as [->|Hpos] by lia; [by rewrite pretty_N_go_0|].
  rewrite pretty_N_go_step by done. apply IH.
  - by apply N.div_lt.
  - split; [|done]. unfold pretty_N_char. by repeat case_match.
Qed.

Lemma no_dollar_Itoa i : no_dollar (Itoa i).
Proof.
  unfold Itoa, pretty, pretty_Z.
  destruct i as [|x|x]; [by repeat split| |].
  - unfold pretty, pretty_positive, pretty, pretty_N. case_decide; [done|].
    by apply no_dollar_pretty_N_go.
  - split; [done|].
    unfold pretty, pretty_positive, pretty, pretty_N. case_decide; [done|].
    by apply no_dollar_pretty_N_go.
Qed.

Lemma no_dollar_app_dollar p s : ¬ no_dollar (p +:+ "$" +:+ s).
Proof. induction p as [|c p IH]; simpl; [by intros [? _] | by intros [_ ?]]. Qed.

Lemma key_split p q a b :
  no_dollar a → no_dollar b →
  p +:+ "$" +:+ a = q +:+ "$" +:+ b → p = q ∧ a = b.
Proof.
  intros Ha Hb. revert q.
  induction p as [|c p IH]; intros [|d q] Heq; simpl in Heq.
  - by injection Heq.
  - injection Heq as _ Heq. change (a = q +:+ "$" +:+ b) in Heq. rewrite Heq in Ha.
    by destruct (no_dollar_app_dollar q b).
  - injection Heq as _ Heq. change (p +:+ "$" +:+ a = b) in Heq. rewrite <- Heq in Hb.
    by destruct (no_dollar_app_dollar p a).
  - injection Heq as -> Heq. by destruct (IH _ Heq) as [-> ->].
Qed.

Lemma chunkKey_split objectPath1 objectPath2 i j :
  chunkKey objectPath1 i = chunkKey objectPath2 j → objectPath1 = objectPath2 ∧ i = j.
Proof.
  unfold chunkKey. intros Heq.
  apply key_split in Heq as [-> Heq]; [|apply no_dollar_Itoa..].
  split; [done|]. by apply (inj pretty) in Heq.
Qed.

(** X15.  The shard keys of different chunks never coincide, within an
    object or across objects: the key [objectPath + "$" + i] determines
    both the path and the chunk number, also when a path itself contains
    the separator. *)
Theorem chunkKey_separates objectPath1 objectPath2 i j :
  chunkKey objectPath1 i = chunkKey objectPath2 j →
  objectPath1 = objectPath2 ∧ i = j.
Proof. apply chunkKey_split. Qed.

Section Further.
Context {Node : Type} `{!ObjectStorage Node} `{!Erasure} `{!Gob}.
Implicit Types (w : World (Node := Node)) (eStorage : encodedStorage).

(** ** Opening a root *)

Lemma openNodes_all_open w count i :
  (∀ j, (i ≤ j < i + count)%nat → node_Open (w_nodes w j) = None) →
  openNodes w count i = Val (seq i count).
Proof.
  revert i. induction count as [|count IH]; intros i Hopen; simpl; [done|].
  rewrite Hopen by lia. rewrite IH; [done|]. intros j Hj. apply Hopen. lia.
Qed.

Lemma openNodes_first_error w count i n e :
  (i ≤ n < i + count)%nat →
  (∀ j, (i ≤ j < n)%nat → node_Open (w_nodes w j) = None) →
  node_Open (w_nodes w n) = Some e →
  openNodes w count i = Fail e.
Proof.
  revert i. induction count as [|count IH]; intros i Hn Hopen Hfail; simpl; [lia|].
  destruct (decide (i = n)) as [->|Hne]; [by rewrite Hfail|].
  rewrite Hopen by lia. rewrite (IH (S i)); [done | lia | | done].
  intros j Hj. apply Hopen. lia.
Qed.

(** X1.  [NewStorage] fails with the error of the first slice that does
    not open, whatever the index file holds. *)
Theorem NewStorage_open_error w rootDir k m blockSize n e :
  (n < 16)%nat →
  (∀ j, (j < n)%nat → node_Open (w_nodes w j) = None) →
  node_Open (w_nodes w n) = Some e →
  NewStorage w rootDir k m blockSize = Fail e.
Proof.
  intros Hn Hopen Hfail. unfold NewStorage.
  rewrite (openNodes_first_error w 16 0 n e); [done | lia | | done].
  intros j Hj. apply Hopen. lia.
Qed.

(** X2.  When the sixteen slices open, [NewStorage] is decided by the
    index file: when [os.Stat] does not find it the engine starts with an
    empty index; when it is there and cannot be opened [NewStorage] fails
    with the error of the open; when it opens and decodes the engine starts
    with the decoded index; and when it does not decode [NewStorage] fails
    with the decoder's error. *)
Theorem NewStorage_loads_index w rootDir k m blockSize :
  (∀ j, (j < 16)%nat → node_Open (w_nodes w j) = None) →
  NewStorage w rootDir k m blockSize =
    match w_index w with
    | None =>
        Val {| RootDir := rootDir; K := k; M := m; BlockSize := blockSize;
               objects := ∅; diskStorage := seq 0 16 |}
    | Some indexFile =>
        match ia_open (w_index_access w) with
        | Some e => Fail e
        | None =>
            match gob_Decode indexFile with
            | Val objs =>
                Val {| RootDir := rootDir; K := k; M := m; BlockSize := blockSize;
                       objects := objs; diskStorage := seq 0 16 |}
            | Fail e => Fail e
            end
        end
    end.
Proof.
  intros Hopen. unfold NewStorage, loadIndex.
  rewrite (openNodes_all_open w 16 0) by (intros j Hj; apply Hopen; lia).
  destruct (w_index w); [|done]. by destruct (ia_open (w_index_access w)).
Qed.

(** ** The fan-out, slice by slice *)

Lemma storeBlocksFrom_take stores i path blocks w n :
  (i + length stores ≤ n)%nat →
  storeBlocksFrom stores i path (take n blocks) w =
  storeBlocksFrom stores i path blocks w.
Proof.
  revert i w. induction stores as [|store stores IH]; intros i w Hn; simpl; [done|].
  simpl in Hn. rewrite lookup_take_lt by lia.
  destruct (blocks !! i) as [block|]; [|done].
  destruct (storageRoutine store path (bytes_NewBuffer block) w) as [e w1].
  by rewrite IH by lia.
Qed.

(** X3.  [storeBlocks] looks at one shard per slice of the pool: the
    shards beyond the size of the pool are never written, and the call
    behaves as if they were not there. *)
Theorem storeBlocks_ignores_extra_shards eStorage path blocks w :
  storeBlocks eStorage path (take (length (diskStorage eStorage)) blocks) w =
  storeBlocks eStorage path blocks w.
Proof. unfold storeBlocks. by apply storeBlocksFrom_take. Qed.

Lemma omap_ext_elem {A B} (f g : A → option B) (l : list A) :
  (∀ x, x ∈ l → f x = g x) → omap f l = omap g l.
Proof.
  induction l as [|x l IH]; intros Hfg; simpl; [done|].
  rewrite (Hfg x) by by left.
  assert (omap f l = omap g l) as Hrest by (apply IH; intros y Hy; apply Hfg; by right).
  destruct (g x); [f_equal|]; exact Hrest.
Qed.

Lemma storeBlocksFrom_fan_out stores i path blocks w errs w' :
  NoDup stores →
  storeBlocksFrom stores i path blocks w = Some (errs, w') →
  errs = omap (λ sb, (node_Put (w_nodes w sb.1) path (bytes_NewBuffer sb.2)).2)
           (zip stores (drop i blocks)) ∧
  (∀ j store block, stores !! j = Some store → blocks !! (i + j)%nat = Some block →
     w_nodes w' store =
       (node_Put (w_nodes w store) path (bytes_NewBuffer block)).1) ∧
  (∀ store, store ∉ stores → w_nodes w' store = w_nodes w store).
Proof.
  revert i w errs w'.
  induction stores as [|store0 stores IH]; intros i w errs w' Hnodup; simpl.
  - intros [= <- <-]. split_and!; [done | | done]. by intros j store block Hj.
  - destruct (blocks !! i) as [block0|] eqn:Hblock; [|done].
    unfold storageRoutine.
    destruct (node_Put (w_nodes w store0) path (bytes_NewBuffer block0))
      as [s' e] eqn:Hput.
    destruct (storeBlocksFrom stores (S i) _ _ _) as [[errs2 w2]|] eqn:Hrest; [|done].
    intros [= <- <-].
    pose proof (NoDup_cons_1_1 _ _ Hnodup) as Hfresh.
    apply NoDup_cons_1_2 in Hnodup.
    match type of Hrest with
    | storeBlocksFrom _ _ _ _ ?w1 = _ =>
        assert (∀ store, store ≠ store0 → w_nodes w1 store = w_nodes w store)
          as Hother by (intros store Hne; simpl; by rewrite decide_False);
        assert (w_nodes w1 store0 = s') as Hself by (simpl; by rewrite decide_True);
        set (wmid := w1) in *; clearbody wmid
    end.
    destruct (IH _ _ _ _ Hnodup Hrest) as (Herrs & Hin & Hout).
    split_and!.
    + rewrite (drop_S _ _ _ Hblock). cbn [zip zip_with omap list_omap fst snd].
      rewrite Hput. cbn [snd]. rewrite Herrs.
      rewrite (omap_ext_elem _
        (λ sb, (node_Put (w_nodes w sb.1) path (bytes_NewBuffer sb.2)).2)); [done|].
      intros [store block] Hel. simpl. apply elem_of_zip_l in Hel. simpl in Hel.
      rewrite Hother; [done|]. by intros ->.
    + intros [|j] store block Hj Hb; simpl in Hj.
      * injection Hj as <-. rewrite Nat.add_0_r, Hblock in Hb. injection Hb as <-.
        by rewrite (Hout _ Hfresh), Hself, Hput.
      * replace (i + S j)%nat with (S i + j)%nat in Hb by lia.
        rewrite (Hin _ _ _ Hj Hb). rewrite Hother; [done|].
        intros ->. apply Hfresh. by eapply list_elem_of_lookup_2.
    + intros store Hnot. apply not_elem_of_cons in Hnot as [Hne Hnot].
      rewrite (Hout _ Hnot). by apply Hother.
Qed.

(** X4.  [storeBlocks] has no early exit.  When it returns, every slice of
    the pool has been given its shard, also after another slice failed:
    the state of slice [j] is what its [Put] of shard [j] made of it, the
    slices outside the pool are untouched, and the errors returned are
    those of the slices that failed, in the order of the pool. *)
Theorem storeBlocks_fan_out eStorage path blocks w errs w' :
  NoDup (diskStorage eStorage) →
  storeBlocks eStorage path blocks w = Some (errs, w') →
  errs = omap (λ sb, (node_Put (w_nodes w sb.1) path (bytes_NewBuffer sb.2)).2)
           (zip (diskStorage eStorage) blocks) ∧
  (∀ j store block,
     diskStorage eStorage !! j = Some store → blocks !! j = Some block →
     w_nodes w' store =
       (node_Put (w_nodes w store) path (bytes_NewBuffer block)).1) ∧
  (∀ store, store ∉ diskStorage eStorage → w_nodes w' store = w_nodes w store).
Proof.
  intros Hnodup Hstore.
  by destruct (storeBlocksFrom_fan_out _ _ _ _ _ _ _ Hnodup Hstore) as (? & ? & ?).
Qed.

End Further.

Section FurtherPutGet.
Context {Node : Type} `{!ObjectStorage Node} `{!Erasure} `{!Gob}.
Implicit Types (w : World (Node := Node)) (eStorage : encodedStorage).

(** ** The read loop depends on the slices only *)

Lemma readBlocks_ext eStorage eStorage' encoder perr objectPath blocks :
  diskStorage eStorage = diskStorage eStorage' →
  ∀ i written w w',
    (∀ store j, node_Get (w_nodes w store) (chunkKey objectPath j) =
                node_Get (w_nodes w' store) (chunkKey objectPath j)) →
    (readBlocks eStorage encoder perr objectPath i blocks written w).1 =
    (readBlocks eStorage' encoder perr objectPath i blocks written w').1.
Proof.
  intros Hpool. induction blocks as [|chunk rest IH]; intros i written w w' Hsame;
    simpl; [done|].
  unfold getBlockSlices. rewrite <- Hpool.
  destruct (getBlockSlicesFrom_spec (diskStorage eStorage) (chunkKey objectPath i) w)
    as (w1 & -> & Hn1 & _).
  destruct (getBlockSlicesFrom_spec (diskStorage eStorage) (chunkKey objectPath i) w')
    as (w1' & -> & Hn1' & _).
  assert ((λ store, fetch (w_nodes w store) (chunkKey objectPath i))
            <$> diskStorage eStorage =
          (λ store, fetch (w_nodes w' store) (chunkKey objectPath i))
            <$> diskStorage eStorage) as ->.
  { apply list_fmap_ext. intros _ store _. unfold fetch. by rewrite Hsame. }
  destruct (gatherSlices _) as [shards|]; [|done].
  destruct (Decode encoder shards (Length chunk)) as [d [e|]]; [done|].
  apply IH. intros store j. by rewrite Hn1, Hn1'.
Qed.

Lemma Get_ext eStorage eStorage' objectPath w w' :
  objects eStorage !! objectPath = objects eStorage' !! objectPath →
  K eStorage = K eStorage' → M eStorage = M eStorage' →
  diskStorage eStorage = diskStorage eStorage' →
  (∀ store j, node_Get (w_nodes w store) (chunkKey objectPath j) =
              node_Get (w_nodes w' store) (chunkKey objectPath j)) →
  (Get eStorage objectPath w).1 = (Get eStorage' objectPath w').1.
Proof.
  intros Hobj HK HM Hpool Hsame. unfold Get. rewrite <- Hobj.
  destruct (objects eStorage !! objectPath) as [entry|]; [|done].
  unfold readObject. rewrite <- HK, <- HM.
  destruct (ParseEncoderParams (K eStorage) (M eStorage) CAUCHY) as [params perr].
  pose proof (readBlocks_ext eStorage eStorage' (NewEncoder params) perr objectPath
                (Blocks entry) Hpool 0 [] w w' Hsame) as Hread.
  destruct (readBlocks eStorage _ _ _ _ _ _ w) as [r1 w1].
  destruct (readBlocks eStorage' _ _ _ _ _ _ w') as [r2 w2].
  simpl in *. by rewrite Hread.
Qed.

Lemma Get_frame eStorage objectPath w :
  w_nodes (Get eStorage objectPath w).2 = w_nodes w ∧
  w_index (Get eStorage objectPath w).2 = w_index w.
Proof.
  unfold Get. destruct (objects eStorage !! objectPath) as [entry|]; [|done].
  unfold readObject.
  destruct (ParseEncoderParams (K eStorage) (M eStorage) CAUCHY) as [params perr].
  destruct (readBlocks_trace eStorage (NewEncoder params) perr objectPath 0
              (Blocks entry) [] w) as (n & _ & Hn & Hi & _).
  by destruct (readBlocks _ _ _ _ _ _ _ _) as [reader w'].
Qed.

(** X5.  [Get] only reads: it leaves every slice and the index file as
    they were, and a second [Get] of the same path returns the same reader
    contents and error as the first. *)
Theorem Get_twice eStorage objectPath w :
  let w1 := (Get eStorage objectPath w).2 in
  w_nodes w1 = w_nodes w ∧ w_index w1 = w_index w ∧
  (Get eStorage objectPath w1).1 = (Get eStorage objectPath w).1.
Proof.
  intros w1. destruct (Get_frame eStorage objectPath w) as [Hn Hi].
  split_and!; [done..|]. apply Get_ext; [done..|].
  intros store j. subst w1. by rewrite Hn.
Qed.

(** X6.  A decoding failure ends the stream with the decoder's own error:
    when every slice answered and [Decode] fails on a chunk, the consumer
    gets the bytes of the chunks before it and then that error, and the
    chunks after it are not read. *)
Theorem read_decode_error eStorage encoder perr objectPath i chunk rest written w d e :
  let slices := (λ store, fetch (w_nodes w store) (chunkKey objectPath i))
                  <$> diskStorage eStorage in
  Forall (λ slice, err slice = None) slices →
  Decode encoder (data <$> slices) (Length chunk) = (d, Some e) →
  (readBlocks eStorage encoder perr objectPath i (chunk :: rest) written w).1 =
    {| rd_data := written; rd_err := Some e |} ∧
  w_trace (readBlocks eStorage encoder perr objectPath i (chunk :: rest) written w).2 =
    w_trace w ++ ((λ store, EvGet store (chunkKey objectPath i)) <$> diskStorage eStorage).
Proof.
  intros slices Hall Hdec. simpl. unfold getBlockSlices.
  destruct (getBlockSlicesFrom_spec (diskStorage eStorage) (chunkKey objectPath i) w)
    as (w1 & -> & _ & _ & _ & Htrace).
  fold slices.
  assert (gatherSlices slices = Some (data <$> slices)) as ->
    by by apply gatherSlices_Some.
  by rewrite Hdec.
Qed.

(** ** [Put] and the index *)

Lemma Put_frame_inv eStorage objectPath object w r e' w' :
  Put eStorage objectPath object w = Some ((r, e'), w') →
  RootDir e' = RootDir eStorage ∧ K e' = K eStorage ∧ M e' = M eStorage ∧
  BlockSize e' = BlockSize eStorage ∧ diskStorage e' = diskStorage eStorage ∧
  ∀ other, other ≠ objectPath → objects e' !! other = objects eStorage !! other.
Proof.
  intros HPut.
  apply Put_inv in HPut as [(perr & _ & _ & -> & _)|(res & w1 & _ & _ & Hres)]; [done|].
  destruct res as [e|entry].
  - by destruct Hres as (_ & -> & _).
  - destruct Hres as (_ & -> & _). simpl. split_and!; [done..|].
    intros other Hne. by rewrite lookup_insert_ne.
Qed.

(** X7.  [Put] changes the index at its own path only: whatever it returns,
    the parameters and the pool of the engine and the entries of all other
    paths are as before. *)
Theorem Put_frame eStorage objectPath object w r e' w' :
  Put eStorage objectPath object w = Some ((r, e'), w') →
  RootDir e' = RootDir eStorage ∧ K e' = K eStorage ∧ M e' = M eStorage ∧
  BlockSize e' = BlockSize eStorage ∧ diskStorage e' = diskStorage eStorage ∧
  ∀ other, other ≠ objectPath → objects e' !! other = objects eStorage !! other.
Proof. apply Put_frame_inv. Qed.

(** X8.  An empty object needs no slice.  With valid parameters, [Put] of
    an object without bytes returns nil without any request to a slice,
    whatever the size of the pool and the number of shards of the codec,
    and records an entry without blocks; the [Get] that follows returns an
    empty stream, again without any request. *)
Theorem Put_empty_object eStorage objectPath object w :
  rd_data object = [] → rd_err object = None →
  (ParseEncoderParams (K eStorage) (M eStorage) CAUCHY).2 = None →
  ∃ e' w',
    Put eStorage objectPath object w = Some ((None, e'), w') ∧
    objects e' !! objectPath =
      Some {| Path := objectPath; Md5sum := "md5sum"; Crc := 24; Blocks := [] |} ∧
    w_trace w' = w_trace w ∧ w_nodes w' = w_nodes w ∧
    Get e' objectPath w' = ((Some (bytes_NewBuffer []), None), w').
Proof.
  intros Hdata Herr Hparse. unfold Put, SplitStream, dataChunks.
  rewrite Hdata, Herr. simpl.
  destruct (ParseEncoderParams (K eStorage) (M eStorage) CAUCHY) as [params perr] eqn:Hp.
  simpl in Hparse. subst perr.
  destruct (ioutil_WriteFile w _) as [w2 werr] eqn:Hwrite.
  do 2 eexists. split; [done|]. simpl. rewrite lookup_insert_eq.
  pose proof (ioutil_WriteFile_frame w
    (gob_Encode (<[objectPath:={| Path := objectPath; Md5sum := "md5sum"; Crc := 24;
                                   Blocks := [] |}]> (objects eStorage)))) as [Hn Ht].
  rewrite Hwrite in Hn, Ht. simpl in Hn, Ht.
  split_and!; [done..|].
  unfold Get. simpl. rewrite lookup_insert_eq. unfold readObject. simpl.
  by rewrite Hp.
Qed.

Lemma putChunks_app eStorage encoder objectPath xs ys :
  ∀ i entry w,
    putChunks eStorage encoder objectPath (xs ++ ys) i entry w =
    match putChunks eStorage encoder objectPath xs i entry w with
    | Some (inr entry', w1) =>
        putChunks eStorage encoder objectPath ys (i + Z.of_nat (length xs)) entry' w1
    | other => other
    end.
Proof.
  induction xs as [|x xs IH]; intros i entry w.
  - simpl. by rewrite Z.add_0_r.
  - cbn [app putChunks length]. destruct (Err x); [done|].
    destruct (Encode encoder (Data x)) as [blocks len].
    destruct (storeBlocks _ _ _ _) as [[[|e errs] w1]|]; [|done..].
    rewrite IH. replace (i + 1 + Z.of_nat (length xs)) with (i + Z.of_nat (S (length xs)))
      by lia. done.
Qed.

(** X9.  A failed [Put] is not rolled back on the slices.  When the reader
    of an object fails after its last byte, [Put] returns the reader's
    error and leaves the engine as it was, but it has sent to the slices
    exactly what the [Put] of the complete object sends: the same requests
    leave the slices in the same state, and only the index is not written. *)
Theorem Put_failing_reader eStorage objectPath contents e w e1 w1 :
  Put eStorage objectPath (bytes_NewBuffer contents) w = Some ((None, e1), w1) →
  ∃ w', Put eStorage objectPath {| rd_data := contents; rd_err := Some e |} w
          = Some ((Some e, eStorage), w') ∧
        w_nodes w' = w_nodes w1 ∧ w_trace w' = w_trace w1 ∧
        w_index w' = w_index w.
Proof.
  intros HPut.
  apply Put_inv in HPut as [(perr & _ & ? & _)|(res & w0 & Hparse & Hloop & Hres)];
    [done|].
  destruct res as [e0|entry]; [by destruct Hres|]. destruct Hres as (_ & _ & ->).
  unfold Put, encoderOf, SplitStream, dataChunks in *.
  cbn [rd_data rd_err bytes_NewBuffer] in *. rewrite app_nil_r in Hloop.
  destruct (ParseEncoderParams (K eStorage) (M eStorage) CAUCHY) as [params perr].
  simpl in Hparse. subst perr. cbn [fst] in Hloop.
  rewrite putChunks_app, Hloop. simpl.
  exists w0. destruct (ioutil_WriteFile_frame w0 (gob_Encode (objects e1))) as [-> ->].
  apply putChunks_inv in Hloop as (Hidx & _). by split_and!.
Qed.

(** X10.  What [Put] leaves behind survives a restart.  When the index
    file can be written and gob decodes what it encoded, an engine opened
    on the root after a [Put] that returned nil holds the same index as the
    engine that made the [Put], and, opened with the same K and M, its
    [Get] of any path returns what the first engine's [Get] returns. *)
Theorem Put_then_reopen eStorage objectPath object w e1 w1 rootDir blockSize reopened :
  diskStorage eStorage = seq 0 16 →
  ia_write (w_index_access w) = WriteOk →
  gob_Decode (gob_Encode (objects e1)) = Val (objects e1) →
  Put eStorage objectPath object w = Some ((None, e1), w1) →
  NewStorage w1 rootDir (K eStorage) (M eStorage) blockSize = Val reopened →
  objects reopened = objects e1 ∧
  ∀ path w2, (∀ store key, node_Get (w_nodes w2 store) key = node_Get (w_nodes w1 store) key) →
    (Get reopened path w2).1 = (Get e1 path w1).1.
Proof.
  intros Hpool Hunlocked Hgob HPut Hnew.
  pose proof (Put_frame_inv _ _ _ _ _ _ _ HPut) as (_ & HK & HM & _ & Hpool1 & _).
  apply NewStorage_inv in Hnew as (Hpool2 & Hload & HK2 & HM2 & _).
  assert (w_index w1 = Some (gob_Encode (objects e1))) as Hidx.
  { apply Put_inv in HPut as [(perr & _ & ? & _)|(res & w0 & _ & Hloop & Hres)]; [done|].
    destruct res as [e|entry]; [by destruct Hres|]. destruct Hres as (_ & He & ->).
    apply putChunks_inv in Hloop as (_ & Hlock & _).
    unfold ioutil_WriteFile. by rewrite Hlock, Hunlocked. }
  unfold loadIndex in Hload. rewrite Hidx in Hload.
  destruct (ia_open (w_index_access w1)); [done|].
  rewrite Hgob in Hload. injection Hload as Hobjs.
  split; [done|]. intros path w2 Hsame.
  apply Get_ext; [by rewrite Hobjs | congruence.. | ].
  intros store j. apply Hsame.
Qed.

(** X11.  Objects do not disturb one another.  On slices that keep what is
    put, a [Put] to one path that returns nil leaves the [Get] of every
    other path as it was: same bytes, same end of stream. *)
Theorem Put_other_path_preserves_Get eStorage objectPath object w e1 w1 other :
  faithful_store → NoDup (diskStorage eStorage) →
  other ≠ objectPath →
  Put eStorage objectPath object w = Some ((None, e1), w1) →
  (Get e1 other w1).1 = (Get eStorage other w).1.
Proof.
  intros Hfaith Hnodup Hne HPut.
  pose proof (Put_frame_inv _ _ _ _ _ _ _ HPut) as (_ & HK & HM & _ & Hpool & Hobjs).
  apply Get_ext; [by apply Hobjs | done.. |].
  apply Put_inv in HPut as [(perr & _ & ? & _)|(res & w0 & _ & Hloop & Hres)]; [done|].
  destruct res as [e|entry]; [by destruct Hres|]. destruct Hres as (_ & _ & ->).
  destruct (putChunks_stored _ _ _ _ Hfaith Hnodup _ _ _ _ _ Hloop) as (_ & Hother).
  intros store j. rewrite (proj1 (ioutil_WriteFile_frame w0 _)).
  apply Hother. intros n _ Heq. by apply chunkKey_split in Heq as [? _].
Qed.

(** X12.  [Put] returns, without panic, whenever the codec yields at least
    as many shards for every chunk of the object as the pool has slices. *)
Theorem Put_does_not_panic eStorage objectPath object w :
  (∀ c, c ∈ dataChunks object (BlockSize eStorage) →
     (length (diskStorage eStorage) ≤ length (Encode (encoderOf eStorage) c).1)%nat) →
  ∃ r e' w', Put eStorage objectPath object w = Some ((r, e'), w').
Proof.
  intros Hshards. destruct (Put_returns eStorage objectPath object w Hshards)
    as [[[r e'] w'] HPut]. by exists r, e', w'.
Qed.

(** X13.  The snapshot follows the outcome of the write, not the result of
    [Put]: after a [Put] that returned nil the index file holds the
    encoding of the engine's index when the write went through; it is as
    it was before the call when the open for writing was refused; and it
    holds only the first bytes of the encoding, as many as were written,
    when the write failed after the file was opened and truncated. *)
Theorem Put_snapshot eStorage objectPath object w e1 w1 :
  Put eStorage objectPath object w = Some ((None, e1), w1) →
  w_index w1 =
    match ia_write (w_index_access w) with
    | WriteOk => Some (gob_Encode (objects e1))
    | WriteRefused _ => w_index w
    | WriteShort n _ => Some (take n (gob_Encode (objects e1)))
    end.
Proof.
  intros HPut.
  apply Put_inv in HPut as [(perr & _ & ? & _)|(res & w0 & _ & Hloop & Hres)]; [done|].
  destruct res as [e|entry]; [by destruct Hres|]. destruct Hres as (_ & He & ->).
  apply putChunks_inv in Hloop as (Hidx & Hlock & _).
  unfold ioutil_WriteFile. rewrite Hlock.
  by destruct (ia_write (w_index_access w)).
Qed.

(** X14.  [Put] keeps the index well formed: when every entry of the index
    is filed under its own path with its blocks numbered by position, the
    same holds of the index after a [Put], whatever it returns. *)
Theorem Put_keeps_index_wf eStorage objectPath object w r e' w' :
  index_wf (objects eStorage) →
  Put eStorage objectPath object w = Some ((r, e'), w') →
  index_wf (objects e').
Proof.
  intros Hwf HPut.
  apply Put_inv in HPut as [(perr & _ & _ & -> & _)|(res & w1 & _ & Hloop & Hres)]; [done|].
  destruct res as [e|entry]; [by destruct Hres as (_ & -> & _)|].
  destruct Hres as (_ & -> & _).
  apply putChunks_inv in Hloop as (_ & _ & n & evs & _ & _ & _ & _ & _ & _ & ->).
  intros path entry. simpl. rewrite lookup_insert.
  case_decide as Hpath; [|by apply Hwf].
  intros [= <-]. simpl. split; [done|].
  intros i block Hblock. rewrite list_lookup_imap in Hblock.
  destruct (SplitStream object (BlockSize eStorage) !! i); [|done].
  simpl in Hblock. injection Hblock as <-. simpl. lia.
Qed.

End FurtherPutGet.

(** ** The further properties on concrete roots *)

Lemma bytes_to_pos_to_bytes p : bytes_to_pos (pos_to_bytes p) = Some p.
Proof. induction p as [p IH|p IH|]; simpl; by rewrite ?IH. Qed.

Lemma bits_gob_roundtrip objs : bits_Decode (bits_Encode objs) = Val objs.
Proof.
  unfold bits_Decode, bits_Encode. rewrite bytes_to_pos_to_bytes. simpl.
  by rewrite decode_encode.
Qed.

Lemma chunkKey_separates_witness :
  chunkKey "a$1" 0 = chunkKey "a$1" 0 ∧ ("a$1"%string = "a$1"%string ∧ 0 = 0).
Proof.
  split; [reflexivity|]. exact (chunkKey_separates "a$1" "a$1" 0 0 eq_refl).
Defined.

Lemma NewStorage_open_error_witness :
  NewStorage (take_offline (take_offline fresh_root 3) 7) "root" 10 6 4096
    = Fail "slice offline"%string.
Proof.
  apply (NewStorage_open_error _ "root" 10 6 4096 3 "slice offline"%string).
  - lia.
  - intros [|[|[|j]]] Hj; [reflexivity..|lia].
  - reflexivity.
Defined.

Lemma NewStorage_loads_index_witness :
  let w1 := (after_Put (fresh_engine 10 6 4) "a" (sample_object 6) fresh_root).2 in
  let unreadable := {| ia_open := Some "permission denied"%string; ia_write := WriteOk |} in
  NewStorage fresh_root "root" 10 6 4096 = Val (fresh_engine 10 6 4096) ∧
  NewStorage (set_access w1 unreadable) "root" 10 6 4 = Fail "permission denied"%string.
Proof.
  intros w1 unreadable. split.
  - exact (NewStorage_loads_index fresh_root "root" 10 6 4096 (λ j _, eq_refl)).
  - refine (eq_trans (NewStorage_loads_index (set_access w1 unreadable) "root" 10 6 4 _) _).
    + intros j Hj.
      do 16 (destruct j as [|j]; [vm_compute; reflexivity|]). lia.
    + vm_compute. reflexivity.
Defined.

Lemma storeBlocks_fan_out_witness :
  let e0 := fresh_engine 10 6 4 in
  let w0 := take_offline fresh_root 0 in
  let blocks := replicate 16 [Byte.x2a] in
  let errs := (default ([], w0) (storeBlocks e0 "k" blocks w0)).1 in
  let w1 := (default ([], w0) (storeBlocks e0 "k" blocks w0)).2 in
  storeBlocks e0 "k" blocks w0 = Some (errs, w1) ∧
  errs = ["slice offline"%string] ∧
  w_nodes w1 1%nat = {| blobs := {["k"%string := [Byte.x2a]]}; offline := false |}.
Proof.
  intros e0 w0 blocks errs w1.
  assert (storeBlocks e0 "k" blocks w0 = Some (errs, w1)) as Hstore
    by (vm_compute; reflexivity).
  assert (NoDup (diskStorage e0)) as Hnodup by apply NoDup_seq.
  destruct (storeBlocks_fan_out e0 "k" blocks w0 errs w1 Hnodup Hstore)
    as (Herrs & Hnodes & _).
  split; [exact Hstore|]. split.
  - rewrite Herrs. vm_compute. reflexivity.
  - rewrite (Hnodes 1%nat 1%nat [Byte.x2a] eq_refl eq_refl). vm_compute. reflexivity.
Defined.

Lemma read_decode_error_witness :
  let e0 := fresh_engine 17 1 4 in
  let e1 := (after_Put e0 "a" (sample_object 6) fresh_root).1 in
  let w1 := (after_Put e0 "a" (sample_object 6) fresh_root).2 in
  (readBlocks e1 (encoderOf e1) None "a" 0
     [ {| Index := 0; Length := 4 |}; {| Index := 1; Length := 2 |} ] [] w1).1 =
    {| rd_data := []; rd_err := Some "too few shards"%string |}.
Proof.
  intros e0 e1 w1.
  refine (proj1 (read_decode_error e1 (encoderOf e1) None "a" 0
            {| Index := 0; Length := 4 |} [ {| Index := 1; Length := 2 |} ] [] w1
            [] "too few shards"%string _ _)).
  - vm_compute. repeat constructor.
  - vm_compute. reflexivity.
Defined.

Lemma Put_frame_witness :
  let e0 := fresh_engine 10 6 4 in
  let e1 := (after_Put e0 "a" (sample_object 6) fresh_root).1 in
  let w1 := (after_Put e0 "a" (sample_object 6) fresh_root).2 in
  let e2 := (after_Put e1 "b" (sample_object 3) w1).1 in
  let w2 := (after_Put e1 "b" (sample_object 3) w1).2 in
  Put e1 "b" (sample_object 3) w1 = Some ((None, e2), w2) ∧
  objects e2 !! "a" = objects e1 !! "a" ∧ diskStorage e2 = diskStorage e1.
Proof.
  intros e0 e1 w1 e2 w2.
  assert (Put e1 "b" (sample_object 3) w1 = Some ((None, e2), w2)) as HPut
    by (vm_compute; reflexivity).
  destruct (Put_frame e1 "b" (sample_object 3) w1 None e2 w2 HPut)
    as (_ & _ & _ & _ & Hpool & Hobjs).
  split; [exact HPut|]. split; [|exact Hpool].
  apply Hobjs. discriminate.
Defined.

Lemma Put_empty_object_witness :
  ∃ e' w',
    Put (fresh_engine 2 1 4096) "a" (sample_object 0) fresh_root = Some ((None, e'), w') ∧
    objects e' !! "a" =
      Some {| Path := "a"; Md5sum := "md5sum"; Crc := 24; Blocks := [] |} ∧
    w_trace w' = w_trace fresh_root ∧ w_nodes w' = w_nodes fresh_root ∧
    Get e' "a" w' = ((Some (bytes_NewBuffer []), None), w').
Proof.
  exact (Put_empty_object (fresh_engine 2 1 4096) "a" (sample_object 0) fresh_root
           eq_refl eq_refl eq_refl).
Defined.

Lemma Put_failing_reader_witness :
  let e0 := fresh_engine 10 6 4 in
  let contents := rd_data (sample_object 6) in
  let e1 := (after_Put e0 "a" (bytes_NewBuffer contents) fresh_root).1 in
  let w1 := (after_Put e0 "a" (bytes_NewBuffer contents) fresh_root).2 in
  Put e0 "a" (bytes_NewBuffer contents) fresh_root = Some ((None, e1), w1) ∧
  ∃ w', Put e0 "a" (failing_object contents) fresh_root
          = Some ((Some "unexpected EOF"%string, e0), w') ∧
        w_nodes w' = w_nodes w1 ∧ w_trace w' = w_trace w1 ∧
        w_index w' = w_index fresh_root.
Proof.
  intros e0 contents e1 w1.
  assert (Put e0 "a" (bytes_NewBuffer contents) fresh_root = Some ((None, e1), w1))
    as HPut by (vm_compute; reflexivity).
  split; [exact HPut|].
  exact (Put_failing_reader e0 "a" contents "unexpected EOF"%string fresh_root e1 w1 HPut).
Defined.

Lemma Put_then_reopen_witness :
  let e0 := fresh_engine 10 6 4 in
  let e1 := (after_Put e0 "a" (sample_object 6) fresh_root).1 in
  let w1 := (after_Put e0 "a" (sample_object 6) fresh_root).2 in
  let reopened := {| RootDir := "root"; K := 10; M := 6; BlockSize := 8;
                     objects := objects e1; diskStorage := seq 0 16 |} in
  Put e0 "a" (sample_object 6) fresh_root = Some ((None, e1), w1) ∧
  NewStorage w1 "root" 10 6 8 = Val reopened ∧
  (Get reopened "a" w1).1 = (Get e1 "a" w1).1.
Proof.
  intros e0 e1 w1 reopened.
  assert (Put e0 "a" (sample_object 6) fresh_root = Some ((None, e1), w1)) as HPut
    by (vm_compute; reflexivity).
  assert (NewStorage w1 "root" 10 6 8 = Val reopened) as Hnew
    by (vm_compute; reflexivity).
  split; [exact HPut|]. split; [exact Hnew|].
  exact (proj2 (Put_then_reopen e0 "a" (sample_object 6) fresh_root e1 w1 "root" 8
                  reopened eq_refl eq_refl (bits_gob_roundtrip (objects e1)) HPut Hnew)
           "a"%string w1 (λ _ _, eq_refl)).
Defined.

Lemma Put_other_path_preserves_Get_witness :
  let e0 := fresh_engine 10 6 4 in
  let e1 := (after_Put e0 "a" (sample_object 6) fresh_root).1 in
  let w1 := (after_Put e0 "a" (sample_object 6) fresh_root).2 in
  let e2 := (after_Put e1 "a$0" (sample_object 3) w1).1 in
  let w2 := (after_Put e1 "a$0" (sample_object 3) w1).2 in
  Put e1 "a$0" (sample_object 3) w1 = Some ((None, e2), w2) ∧
  (Get e2 "a" w2).1 = (Get e1 "a" w1).1.
Proof.
  intros e0 e1 w1 e2 w2.
  assert (Put e1 "a$0" (sample_object 3) w1 = Some ((None, e2), w2)) as HPut
    by (vm_compute; reflexivity).
  assert (NoDup (diskStorage e1)) as Hnodup by (vm_compute; apply (NoDup_seq 0 16)).
  assert ("a"%string ≠ "a$0"%string) as Hne by discriminate.
  split; [exact HPut|].
  exact (Put_other_path_preserves_Get e1 "a$0" (sample_object 3) w1 e2 w2 "a"
           mem_faithful Hnodup Hne HPut).
Defined.

Lemma Put_does_not_panic_witness :
  ∃ r e' w', Put (fresh_engine 10 6 4) "a" (sample_object 6) fresh_root
               = Some ((r, e'), w').
Proof.
  apply (Put_does_not_panic (fresh_engine 10 6 4) "a" (sample_object 6) fresh_root).
  intros c _.
  change (16 ≤ length (stripe_Encode (Some {| sp_k := 10; sp_m := 6 |}) c).1)%nat.
  rewrite stripe_Encode_shards. lia.
Defined.

Lemma Put_snapshot_witness :
  let e0 := fresh_engine 10 6 4 in
  let full := {| ia_open := None;
                 ia_write := WriteShort 0 "no space left on device" |} in
  let w0 := set_access fresh_root full in
  let e1 := (after_Put e0 "a" (sample_object 6) w0).1 in
  let w1 := (after_Put e0 "a" (sample_object 6) w0).2 in
  Put e0 "a" (sample_object 6) w0 = Some ((None, e1), w1) ∧
  w_index w1 = Some [] ∧
  reopened_entry w1 10 6 4 "a" = Fail "EOF"%string.
Proof.
  intros e0 full w0 e1 w1.
  assert (Put e0 "a" (sample_object 6) w0 = Some ((None, e1), w1)) as HPut
    by (vm_compute; reflexivity).
  split; [exact HPut|]. split.
  - exact (Put_snapshot e0 "a" (sample_object 6) w0 e1 w1 HPut).
  - vm_compute. reflexivity.
Defined.

Lemma Put_keeps_index_wf_witness :
  let e0 := fresh_engine 10 6 4 in
  let e1 := (after_Put e0 "a" (sample_object 6) fresh_root).1 in
  let w1 := (after_Put e0 "a" (sample_object 6) fresh_root).2 in
  Put e0 "a" (sample_object 6) fresh_root = Some ((None, e1), w1) ∧
  index_wf (objects e0) ∧ index_wf (objects e1).
Proof.
  intros e0 e1 w1.
  assert (Put e0 "a" (sample_object 6) fresh_root = Some ((None, e1), w1)) as HPut
    by (vm_compute; reflexivity).
  assert (index_wf (objects e0)) as Hwf by (intros path entry Hin; discriminate Hin).
  split; [exact HPut|]. split; [exact Hwf|].
  exact (Put_keeps_index_wf e0 "a" (sample_object 6) fresh_root None e1 w1 Hwf HPut).
Defined.
